(** * etcd-gateway: the key-space tree builder and the two read handlers

    A shallow embedding of [internal/api] (package [api]) of the gateway:
    [TreeNode], [insertNode], [FetchKeysHandler] and
    [FetchValueForKeyHandler], together with the three functions of Go's
    [strings] package they call ([Split], [TrimSuffix], [TrimPrefix]).

    Go strings are byte sequences; they are modelled by [string], whose
    characters are the 256 values of [ascii]. *)

From Stdlib Require Import List String Ascii Bool Arith Lia ZArith.
From Stdlib Require Import Permutation.
Import ListNotations.
Local Open Scope string_scope.
Local Open Scope list_scope.

(** ** The part of Go's [strings] package used by the handlers *)

Module strings.

(** [strings.HasPrefix(s, prefix)]:
    [len(s) >= len(prefix) && s[:len(prefix)] == prefix]. *)
Definition HasPrefix (s prefix : string) : bool :=
  (String.length prefix <=? String.length s)%nat
  && String.eqb (substring 0 (String.length prefix) s) prefix.

(** [strings.HasSuffix(s, suffix)]:
    [len(s) >= len(suffix) && s[len(s)-len(suffix):] == suffix]. *)
Definition HasSuffix (s suffix : string) : bool :=
  (String.length suffix <=? String.length s)%nat
  && String.eqb
       (substring (String.length s - String.length suffix)
                  (String.length suffix) s)
       suffix.

(** [strings.TrimPrefix(s, prefix)]: [s] without the leading [prefix],
    or [s] itself when it does not start with [prefix]. *)
Definition TrimPrefix (s prefix : string) : string :=
  if HasPrefix s prefix
  then substring (String.length prefix)
                 (String.length s - String.length prefix) s
  else s.

(** [strings.TrimSuffix(s, suffix)]: [s] without the trailing [suffix],
    or [s] itself when it does not end with [suffix]. *)
Definition TrimSuffix (s suffix : string) : string :=
  if HasSuffix s suffix
  then substring 0 (String.length s - String.length suffix) s
  else s.

(** [strings.Split(s, sep)] for a separator of one byte, the only way the
    gateway calls it ([sep = "/"]): the pieces of [s] between the
    occurrences of [sep], one more piece than there are occurrences.
    [Split("", "/")] is the one-element slice holding the empty string. *)
Fixpoint Split (s : string) (sep : ascii) : list string :=
  match s with
  | EmptyString => [EmptyString]
  | String c s' =>
      if Ascii.eqb c sep then EmptyString :: Split s' sep
      else match Split s' sep with
           | [] => [String c EmptyString]
           | piece :: pieces => String c piece :: pieces
           end
  end.

End strings.

(** The separator of hierarchical keys. *)
Definition slash : ascii := "/"%char.

(** ** The data model *)

(** [type TreeNode struct { ID, Name, Value string; Children []*TreeNode }].

    Every [*TreeNode] in a tree is allocated by [insertNode] (or is the root
    allocated by the handler) and is appended to exactly one [Children]
    slice, so the heap reachable from a root is a tree without sharing; an
    in-place update of a descendant is the rebuilding of the spine above it.
    [Value] is a plain string: the zero value [""] is what a node without a
    value holds, and the [omitempty] tag leaves it out of the response. *)
Unset Elimination Schemes.
Inductive TreeNode : Type :=
  mkTreeNode { ID : string; Name : string; Value : string;
               Children : list TreeNode }.
Set Elimination Schemes.

Definition setValue (n : TreeNode) (value : string) : TreeNode :=
  mkTreeNode (ID n) (Name n) value (Children n).

Definition setChildren (n : TreeNode) (children : list TreeNode) : TreeNode :=
  mkTreeNode (ID n) (Name n) (Value n) children.

(** ** The tree builder *)

(** The inner loop of [insertNode]:
    [for _, child := range root.Children { if child.Name == part { ...; break } }].
    The result is the position and the node of the first child named
    [part], or [None] when the loop ends with [found == false]. *)
Fixpoint findChild (part : string) (children : list TreeNode)
  : option (nat * TreeNode) :=
  match children with
  | [] => None
  | child :: rest =>
      if String.eqb (Name child) part then Some (0%nat, child)
      else match findChild part rest with
           | Some (i, c) => Some (S i, c)
           | None => None
           end
  end.

(** [children[i] = n]; nothing happens out of range ([findChild] only
    returns positions in range). *)
Fixpoint replaceAt (i : nat) (n : TreeNode) (children : list TreeNode)
  : list TreeNode :=
  match children, i with
  | [], _ => []
  | _ :: rest, O => n :: rest
  | c :: rest, S j => c :: replaceAt j n rest
  end.

(** The test [i == len(parts)-1] of [insertNode], on the parts that come
    after the one at index [i]: none is left. *)
Definition lastPart (rest : list string) : bool :=
  match rest with [] => true | _ :: _ => false end.

(** [func insertNode(root *TreeNode, parts []string, value string)].

    One iteration of the outer loop is one unfolding on [parts].  The loop
    variable [root] is moved to the child found or created, and the rest of
    the loop runs on it: that is the recursive call, whose result takes the
    child's place under its parent. *)
Fixpoint insertNode (root : TreeNode) (parts : list string) (value : string)
  {struct parts} : TreeNode :=
  match parts with
  | [] => root
  | part :: rest =>
      let last := lastPart rest in
      match findChild part (Children root) with
      | None =>
          let newNode :=
            mkTreeNode (strings.TrimSuffix (ID root ++ "/" ++ part) "/")
                       part
                       (if last then value else "")
                       [] in
          setChildren root
            (Children root ++ [insertNode newNode rest value])
      | Some (i, child) =>
          let child := if last then setValue child value else child in
          setChildren root
            (replaceAt i (insertNode child rest value) (Children root))
      end
  end.

(** ** The store and the responses *)

(** What [client.Get] gives back: an error, or the key-value pairs of the
    response ([resp.Kvs], keys and values as strings). *)
Inductive GetResponse : Type :=
| GetError
| GetOk (Kvs : list (string * string)).

(** The request sent to the store: the key, and whether it is a prefix
    query sorted ascending by key ([WithPrefix(), WithSort(...)]). *)
Record GetRequest : Type :=
  mkGetRequest { reqKey : string; reqPrefixSorted : bool }.

Definition Client : Type := GetRequest -> GetResponse.

(** The arguments of [c.JSON(status, body)]: the value handed to the JSON
    encoder, as the handler built it and before it is encoded. *)
Inductive Body : Type :=
| ErrorBody (error : string)
| ValueBody (value : string)
| NodesBody (nodes : list TreeNode).

Record Response : Type := mkResponse { status : Z; body : Body }.

Definition StatusOK : Z := 200.
Definition StatusBadRequest : Z := 400.
Definition StatusNotFound : Z := 404.
Definition StatusInternalServerError : Z := 500.

(** A handler run: the requests it sent to the store, in order, and the
    status and the value it handed to [c.JSON]. *)
Record Run : Type := mkRun { storeCalls : list GetRequest; response : Response }.

(** The body of the loop of [FetchKeysHandler]:
    [keyParts := strings.Split(string(kv.Key), "/")[1:]] and the insertion.
    [Split] never returns an empty slice, so [[1:]] is in range. *)
Definition insertKv (root : TreeNode) (kv : string * string) : TreeNode :=
  insertNode root (tl (strings.Split (fst kv) slash)) (snd kv).

(** [root := &TreeNode{Name: "root"}]. *)
Definition freshRoot : TreeNode := mkTreeNode "" "root" "" [].

(** The tree the listing handler has built when its loop ends. *)
Definition buildTree (kvs : list (string * string)) : TreeNode :=
  fold_left insertKv kvs freshRoot.

(** [FetchKeysHandler(client)]. *)
Definition FetchKeysHandler (client : Client) : Run :=
  let req := mkGetRequest "/" true in
  match client req with
  | GetError =>
      mkRun [req]
        (mkResponse StatusInternalServerError (ErrorBody "Internal Server Error"))
  | GetOk kvs =>
      mkRun [req] (mkResponse StatusOK (NodesBody (Children (buildTree kvs))))
  end.

(** [FetchValueForKeyHandler(client, logger)], on the value of
    [c.Param("key")]. *)
Definition FetchValueForKeyHandler (client : Client) (key : string) : Run :=
  if String.eqb key "" then
    mkRun [] (mkResponse StatusBadRequest (ErrorBody "Key is required"))
  else
    let key := strings.TrimPrefix key "/" in
    let req := mkGetRequest key false in
    match client req with
    | GetError =>
        mkRun [req]
          (mkResponse StatusInternalServerError
                      (ErrorBody "Internal Server Error"))
    | GetOk [] =>
        mkRun [req] (mkResponse StatusNotFound (ErrorBody "Key not found"))
    | GetOk (kv :: _) =>
        mkRun [req] (mkResponse StatusOK (ValueBody (snd kv)))
    end.

(** A sequence of insertions of the tree builder, against one root. *)
Definition insertAll (root : TreeNode) (ins : list (list string * string))
  : TreeNode :=
  fold_left (fun r i => insertNode r (fst i) (snd i)) ins root.

(** ** Notions the properties are stated with *)

(** [reach t p n]: [n] is the node found from [t] by going down through
    children named by the segments of [p], in order. *)
Inductive reach : TreeNode -> list string -> TreeNode -> Prop :=
| reach_here : forall t, reach t [] t
| reach_child : forall t c p n,
    In c (Children t) -> reach c p n -> reach t (Name c :: p) n.

(** The id the builder gives to the node at path [p] below a node whose id
    is [id]: one [TrimSuffix] of the concatenation per level. *)
Definition pathID (id : string) (p : list string) : string :=
  fold_left
    (fun acc seg : string => strings.TrimSuffix (acc ++ "/" ++ seg) "/") p id.

(** The segments of [p], each preceded by the separator: ["/a/b"] for
    [["a"; "b"]]. *)
Definition joinLeading (p : list string) : string :=
  fold_right (fun seg acc : string => ("/" ++ seg ++ acc)%string) "" p.

(** The segments of [p] with the separator between them: ["a/b"]. *)
Definition joinPath (p : list string) : string := String.concat "/" p.

Fixpoint noSlash (s : string) : bool :=
  match s with
  | EmptyString => true
  | String c s' => negb (Ascii.eqb c slash) && noSlash s'
  end.

(** A segment that is not empty and does not end with the separator. *)
Definition plainEnd (seg : string) : bool :=
  negb (String.eqb seg "") && negb (strings.HasSuffix seg "/").

(** A path segment in the sense of the key space: not empty, and without
    a separator inside. *)
Definition validSeg (seg : string) : bool :=
  negb (String.eqb seg "") && noSlash seg.

(** A raw key of the form [/seg1/.../segn] with [n >= 1] and no empty
    segment. *)
Definition wellFormedKey (key : string) : bool :=
  match strings.Split key slash with
  | EmptyString :: (_ :: _) as parts =>
      forallb (fun seg => negb (String.eqb seg "")) parts
  | _ => false
  end.

(** Every node of a tree, the tree's own root first, then the nodes of the
    children from the first child to the last. *)
Fixpoint nodes (t : TreeNode) : list TreeNode :=
  match t with
  | mkTreeNode _ _ _ children => t :: flat_map nodes children
  end.

(** The nodes of a response body (the children of the root and all that is
    below them). *)
Definition nodesOf (l : list TreeNode) : list TreeNode := flat_map nodes l.

(** The [(id, value)] pair of a node that carries a value, that is, whose
    [Value] is not the zero value. *)
Definition carried (n : TreeNode) : list (string * string) :=
  if String.eqb (Value n) "" then [] else [(ID n, Value n)].

Definition valuesOf (t : TreeNode) : list (string * string) :=
  flat_map carried (nodes t).

Definition flatten (l : list TreeNode) : list (string * string) :=
  flat_map carried (nodesOf l).

(** A tree with every value erased: what is left is the nodes, their ids,
    their names and their child lists. *)
Fixpoint shape (t : TreeNode) : TreeNode :=
  match t with
  | mkTreeNode id name _ children => mkTreeNode id name "" (map shape children)
  end.

(** [hasPath t parts]: the search of [insertNode] finds a child at every
    segment of [parts], starting from [t]. *)
Fixpoint hasPath (t : TreeNode) (parts : list string) : Prop :=
  match parts with
  | [] => True
  | part :: rest =>
      match findChild part (Children t) with
      | None => False
      | Some (_, child) => hasPath child rest
      end
  end.

(** The node the search of [insertNode] ends at. *)
Fixpoint nodeAt (t : TreeNode) (parts : list string) : option TreeNode :=
  match parts with
  | [] => Some t
  | part :: rest =>
      match findChild part (Children t) with
      | None => None
      | Some (_, child) => nodeAt child rest
      end
  end.

(** [t] with the value of the node at [parts] replaced by [value], and
    nothing else touched; [t] itself when there is no such node or [parts]
    is empty. *)
Fixpoint overwrite (t : TreeNode) (parts : list string) (value : string)
  : TreeNode :=
  match parts with
  | [] => t
  | part :: rest =>
      match findChild part (Children t) with
      | None => t
      | Some (i, child) =>
          let child' :=
            match rest with
            | [] => setValue child value
            | _ :: _ => overwrite child rest value
            end in
          setChildren t (replaceAt i child' (Children t))
      end
  end.

(** [extends t t']: [t'] is [t] with values possibly changed and children
    possibly added, every addition at the end of a child list: each node of
    [t] is in [t'] at the same position, with the same id and name, before
    every child that [t] does not have. *)
#[warnings="-register-all"] Inductive extends : TreeNode -> TreeNode -> Prop :=
| extends_node : forall id name v v' cs cs' added,
    Forall2 extends cs cs' ->
    extends (mkTreeNode id name v cs) (mkTreeNode id name v' (cs' ++ added)).

(** The ids of the children are built from the parent's id the way
    [insertNode] builds them, all the way down. *)
#[warnings="-register-all"] Inductive idsBuilt : TreeNode -> Prop :=
| idsBuilt_node : forall t,
    (forall c, In c (Children t) ->
               ID c = strings.TrimSuffix (ID t ++ "/" ++ Name c) "/"
               /\ idsBuilt c) ->
    idsBuilt t.

(** Sibling names are pairwise distinct and every name is a valid segment,
    all the way down. *)
#[warnings="-register-all"] Inductive namesValid : TreeNode -> Prop :=
| namesValid_node : forall t,
    NoDup (map Name (Children t)) ->
    (forall c, In c (Children t) ->
               validSeg (Name c) = true /\ namesValid c) ->
    namesValid t.

(** A string that is empty or starts with the separator. *)
Definition slashLed (s : string) : Prop :=
  match s with
  | EmptyString => True
  | String c _ => c = slash
  end.

(** The last byte of a string, if it has one. *)
Fixpoint lastChar (s : string) : option ascii :=
  match s with
  | EmptyString => None
  | String c EmptyString => Some c
  | String _ s' => lastChar s'
  end.

(** The node [insertNode] creates under [root] for [part], [rest] being the
    parts after it. *)
Definition newNodeOf (root : TreeNode) (part : string) (rest : list string)
  (value : string) : TreeNode :=
  mkTreeNode (strings.TrimSuffix (ID root ++ "/" ++ part) "/") part
             (if lastPart rest then value else "") [].

(** The child [insertNode] found, after the assignment of the value when
    the part is the last one. *)
Definition foundChild (child : TreeNode) (rest : list string) (value : string)
  : TreeNode :=
  if lastPart rest then setValue child value else child.

(** Induction on trees, with the property known for every child. *)
Fixpoint TreeNode_forall_ind (P : TreeNode -> Prop)
  (step : forall id name value cs,
      Forall P cs -> P (mkTreeNode id name value cs))
  (t : TreeNode) : P t :=
  match t with
  | mkTreeNode id name value cs =>
      step id name value cs
        ((fix all (l : list TreeNode) : Forall P l :=
            match l with
            | [] => Forall_nil P
            | c :: l' => Forall_cons c (TreeNode_forall_ind P step c) (all l')
            end) cs)
  end.

(** Sibling names are pairwise distinct, all the way down: the search of
    [insertNode] has at most one child to find. *)
Inductive siblingsDistinct : TreeNode -> Prop :=
| siblingsDistinct_node : forall t,
    NoDup (map Name (Children t)) ->
    (forall c, In c (Children t) -> siblingsDistinct c) ->
    siblingsDistinct t.

(** The segments [FetchKeysHandler] inserts a raw key under. *)
Definition keyParts (key : string) : list string :=
  tl (strings.Split key slash).

(** * Properties *)

(** ** Strings *)

Section StringFacts.

Lemma HasSuffix_slash (s : string) :
  strings.HasSuffix s "/" =
  match lastChar s with Some c => Ascii.eqb c slash | None => false end.
Proof.
  unfold strings.HasSuffix.
  induction s as [|c s IH]; [reflexivity|].
  destruct s as [|c' s'].
  - cbn. unfold slash. destruct (Ascii.eqb c "/"); reflexivity.
  - change (lastChar (String c (String c' s'))) with (lastChar (String c' s')).
    rewrite <- IH. cbn [String.length Nat.leb andb Nat.sub].
    rewrite !Nat.sub_0_r. reflexivity.
Qed.

Lemma lastChar_app (a b : string) :
  b <> "" -> lastChar (a ++ b) = lastChar b.
Proof.
  intros Hb. induction a as [|c a IH]; [reflexivity|].
  cbn [append]. destruct (a ++ b)%string as [|c' r] eqn:E.
  - destruct a; [cbn in E; contradiction | discriminate].
  - exact IH.
Qed.

Lemma lastChar_noSlash (s : string) c :
  noSlash s = true -> lastChar s = Some c -> Ascii.eqb c slash = false.
Proof.
  induction s as [|d s IH]; [discriminate|].
  cbn [noSlash]. intros H L. apply andb_prop in H as [Hd Hs].
  destruct s as [|d' s'].
  - inversion L; subst. now apply negb_true_iff.
  - apply IH; assumption.
Qed.

Lemma validSeg_plainEnd (seg : string) :
  validSeg seg = true -> plainEnd seg = true.
Proof.
  unfold validSeg, plainEnd. intros H. apply andb_prop in H as [Hne Hns].
  rewrite Hne. cbn [andb]. rewrite HasSuffix_slash.
  destruct (lastChar seg) as [c|] eqn:L; [|reflexivity].
  now rewrite (lastChar_noSlash seg c Hns L).
Qed.

(** A segment that does not end with the separator is left as it is. *)
Lemma TrimSuffix_plainEnd (id seg : string) :
  plainEnd seg = true ->
  strings.TrimSuffix (id ++ "/" ++ seg) "/" = (id ++ "/" ++ seg)%string.
Proof.
  unfold plainEnd, strings.TrimSuffix. intros H.
  apply andb_prop in H as [Hne Hsuf].
  apply negb_true_iff in Hne, Hsuf.
  assert (Hseg : seg <> "") by (now apply String.eqb_neq).
  assert (Hb : ("/" ++ seg)%string <> "") by discriminate.
  rewrite HasSuffix_slash, (lastChar_app id _ Hb).
  change ("/" ++ seg)%string with (String slash seg).
  rewrite HasSuffix_slash in Hsuf.
  destruct seg as [|c r]; [contradiction|].
  change (lastChar (String slash (String c r))) with (lastChar (String c r)).
  now rewrite Hsuf.
Qed.

Lemma append_assoc3 (a b c : string) :
  ((a ++ b) ++ c = a ++ b ++ c)%string.
Proof. induction a as [|x a IH]; cbn; [reflexivity | now rewrite IH]. Qed.

Lemma append_nil_r (a : string) : (a ++ "" = a)%string.
Proof. induction a as [|x a IH]; cbn; [reflexivity | now rewrite IH]. Qed.

Lemma append_inv_l (a b c : string) : (a ++ b = a ++ c)%string -> b = c.
Proof.
  induction a as [|x a IH]; cbn; intros H; [assumption|].
  inversion H. auto.
Qed.

(** Two strings made of a separator-free segment followed by nothing or
    by a separator agree on the segment when they are equal. *)
Lemma noSlash_app_inj (n1 n2 s1 s2 : string) :
  noSlash n1 = true -> noSlash n2 = true ->
  slashLed s1 -> slashLed s2 ->
  (n1 ++ s1 = n2 ++ s2)%string -> n1 = n2.
Proof.
  revert n2. induction n1 as [|c n1 IH]; intros [|d n2] H1 H2 L1 L2 E;
    cbn in *; try reflexivity.
  - apply andb_prop in H2 as [Hd _]. apply negb_true_iff in Hd.
    destruct s1 as [|x r]; [discriminate|]. cbn in L1. subst x.
    inversion E; subst d. now rewrite Ascii.eqb_refl in Hd.
  - apply andb_prop in H1 as [Hc _]. apply negb_true_iff in Hc.
    destruct s2 as [|x r]; [discriminate|]. cbn in L2. subst x.
    inversion E; subst c. now rewrite Ascii.eqb_refl in Hc.
  - apply andb_prop in H1 as [_ H1]. apply andb_prop in H2 as [_ H2].
    inversion E; subst d. f_equal. eapply IH; eauto.
Qed.

Lemma Split_not_nil (s : string) (sep : ascii) : strings.Split s sep <> [].
Proof.
  destruct s as [|c s]; cbn; [discriminate|].
  destruct (Ascii.eqb c sep); [discriminate|].
  destruct (strings.Split s sep); discriminate.
Qed.

Lemma Split_noSlash (s : string) :
  Forall (fun piece => noSlash piece = true) (strings.Split s slash).
Proof.
  induction s as [|c s IH]; cbn [strings.Split].
  - repeat constructor.
  - destruct (Ascii.eqb c slash) eqn:E; [now constructor|].
    destruct (strings.Split s slash) as [|piece pieces].
    + repeat constructor. cbn. now rewrite E.
    + inversion IH; subst. constructor; [|assumption].
      cbn. rewrite E. assumption.
Qed.

(** Joining the pieces of [Split] with the separator gives the string
    back. *)
Lemma joinPath_Split (s : string) : joinPath (strings.Split s slash) = s.
Proof.
  unfold joinPath.
  induction s as [|c s IH]; cbn [strings.Split]; [reflexivity|].
  destruct (Ascii.eqb_spec c slash) as [->|Hne].
  - pose proof (Split_not_nil s slash) as Hnn.
    destruct (strings.Split s slash) as [|piece pieces]; [contradiction|].
    cbn [String.concat] in *. rewrite IH. reflexivity.
  - pose proof (Split_not_nil s slash) as Hnn.
    destruct (strings.Split s slash) as [|piece pieces]; [contradiction|].
    cbn [String.concat] in *.
    destruct pieces; cbn [append]; rewrite <- IH; reflexivity.
Qed.

Lemma joinLeading_joinPath (p : list string) :
  p <> [] -> joinLeading p = ("/" ++ joinPath p)%string.
Proof.
  unfold joinPath.
  induction p as [|a p IH]; [contradiction|]. intros _.
  destruct p as [|b p].
  - cbn. now rewrite append_nil_r.
  - cbn [joinLeading fold_right String.concat] in *.
    change (fold_right (fun seg acc : string => ("/" ++ seg ++ acc)%string)
              "" (b :: p)) with (joinLeading (b :: p)).
    rewrite IH by discriminate. reflexivity.
Qed.

Lemma joinLeading_cons (id part : string) (rest : list string) :
  (id ++ joinLeading (part :: rest) = (id ++ "/" ++ part) ++ joinLeading rest)%string.
Proof.
  cbn [joinLeading fold_right].
  change (fold_right (fun seg acc : string => ("/" ++ seg ++ acc)%string) "" rest)
    with (joinLeading rest).
  now rewrite !append_assoc3.
Qed.

(** What a well-formed key splits into. *)
Lemma wellFormedKey_parts (key : string) :
  wellFormedKey key = true ->
  let parts := tl (strings.Split key slash) in
  parts <> [] /\ Forall (fun seg => validSeg seg = true) parts
  /\ key = joinLeading parts.
Proof.
  unfold wellFormedKey. intros H.
  pose proof (Split_noSlash key) as Hns.
  pose proof (joinPath_Split key) as Hj.
  destruct (strings.Split key slash) as [|hd parts]; [discriminate|].
  destruct hd; [|discriminate]. destruct parts as [|p0 parts]; [discriminate|].
  cbn [tl]. split; [discriminate|]. split.
  - inversion Hns as [|? ? _ Hns']; subst.
    rewrite forallb_forall in H. rewrite Forall_forall in *.
    intros seg Hin. unfold validSeg. rewrite (H seg Hin), (Hns' seg Hin).
    reflexivity.
  - rewrite joinLeading_joinPath by discriminate.
    rewrite <- Hj at 1. reflexivity.
Qed.

End StringFacts.

(** ** The search and the update of a child list *)

Section ChildLists.

Lemma findChild_None part cs :
  findChild part cs = None -> Forall (fun x => Name x <> part) cs.
Proof.
  induction cs as [|c cs IH]; cbn; intros H; [constructor|].
  destruct (String.eqb_spec (Name c) part) as [|Hne]; [discriminate|].
  destruct (findChild part cs) as [[i d]|]; [discriminate|].
  constructor; auto.
Qed.

Lemma findChild_Some part cs i c :
  findChild part cs = Some (i, c) ->
  exists l1 l2, cs = l1 ++ c :: l2 /\ List.length l1 = i /\ Name c = part
                /\ Forall (fun x => Name x <> part) l1.
Proof.
  revert i. induction cs as [|d cs IH]; cbn; intros i H; [discriminate|].
  destruct (String.eqb_spec (Name d) part) as [E|Hne].
  - inversion H; subst. exists [], cs. repeat split; auto.
  - destruct (findChild part cs) as [[j e]|]; [|discriminate].
    inversion H; subst.
    destruct (IH j eq_refl) as (l1 & l2 & -> & <- & Hn & Hall).
    exists (d :: l1), l2. repeat split; auto.
Qed.

Lemma findChild_first part l1 c l2 :
  Forall (fun x => Name x <> part) l1 -> Name c = part ->
  findChild part (l1 ++ c :: l2) = Some (List.length l1, c).
Proof.
  intros Hall Hc. induction Hall as [|d l1 Hd _ IH]; cbn.
  - apply String.eqb_eq in Hc. now rewrite Hc.
  - apply String.eqb_neq in Hd. now rewrite Hd, IH.
Qed.

Lemma findChild_absent part cs extra :
  Forall (fun x => Name x <> part) cs ->
  findChild part (cs ++ extra) =
  match findChild part extra with
  | Some (i, c) => Some (List.length cs + i, c)
  | None => None
  end.
Proof.
  intros Hall. induction Hall as [|d l1 Hd _ IH]; cbn.
  - destruct (findChild part extra) as [[i c]|]; reflexivity.
  - apply String.eqb_neq in Hd. rewrite Hd, IH.
    destruct (findChild part extra) as [[i c]|]; reflexivity.
Qed.

Lemma replaceAt_middle l1 c l2 n :
  replaceAt (List.length l1) n (l1 ++ c :: l2) = l1 ++ n :: l2.
Proof. induction l1 as [|d l1 IH]; cbn; [reflexivity | now rewrite IH]. Qed.

(** The two ways one step of [insertNode] goes. *)
Lemma insertNode_cons root part rest value :
  (Forall (fun x => Name x <> part) (Children root) /\
   insertNode root (part :: rest) value =
   setChildren root
     (Children root ++ [insertNode (newNodeOf root part rest value) rest value]))
  \/
  (exists l1 c l2,
      Children root = l1 ++ c :: l2 /\ Name c = part /\
      Forall (fun x => Name x <> part) l1 /\
      insertNode root (part :: rest) value =
      setChildren root
        (l1 ++ insertNode (foundChild c rest value) rest value :: l2)).
Proof.
  cbn [insertNode].
  destruct (findChild part (Children root)) as [[i c]|] eqn:F.
  - right. destruct (findChild_Some _ _ _ _ F) as (l1 & l2 & E & <- & Hn & Hall).
    exists l1, c, l2. repeat split; auto.
    rewrite E, replaceAt_middle. reflexivity.
  - left. split; [now apply findChild_None | reflexivity].
Qed.

Lemma insertNode_ID root parts value :
  ID (insertNode root parts value) = ID root.
Proof.
  destruct parts as [|part rest]; [reflexivity|]. cbn [insertNode].
  destruct (findChild part (Children root)) as [[i c]|]; reflexivity.
Qed.

Lemma insertNode_Name root parts value :
  Name (insertNode root parts value) = Name root.
Proof.
  destruct parts as [|part rest]; [reflexivity|]. cbn [insertNode].
  destruct (findChild part (Children root)) as [[i c]|]; reflexivity.
Qed.

Lemma insertNode_Value root parts value :
  Value (insertNode root parts value) = Value root.
Proof.
  destruct parts as [|part rest]; [reflexivity|]. cbn [insertNode].
  destruct (findChild part (Children root)) as [[i c]|]; reflexivity.
Qed.

Lemma foundChild_ID c rest value : ID (foundChild c rest value) = ID c.
Proof. unfold foundChild. destruct (lastPart rest); reflexivity. Qed.

Lemma foundChild_Name c rest value : Name (foundChild c rest value) = Name c.
Proof. unfold foundChild. destruct (lastPart rest); reflexivity. Qed.

Lemma foundChild_Children c rest value :
  Children (foundChild c rest value) = Children c.
Proof. unfold foundChild. destruct (lastPart rest); reflexivity. Qed.

End ChildLists.

(** ** The ids the builder assigns *)

Section Ids.

Lemma idsBuilt_inv t :
  idsBuilt t ->
  forall c, In c (Children t) ->
            ID c = strings.TrimSuffix (ID t ++ "/" ++ Name c) "/" /\ idsBuilt c.
Proof. intros H. inversion H; subst. assumption. Qed.

Lemma idsBuilt_leaf id name value : idsBuilt (mkTreeNode id name value []).
Proof. constructor. intros c []. Qed.

Lemma idsBuilt_foundChild c rest value :
  idsBuilt c -> idsBuilt (foundChild c rest value).
Proof.
  intros H. unfold foundChild. destruct (lastPart rest); [|assumption].
  constructor. exact (idsBuilt_inv _ H).
Qed.

Lemma insertNode_idsBuilt parts : forall root value,
  idsBuilt root -> idsBuilt (insertNode root parts value).
Proof.
  induction parts as [|part rest IH]; intros root value Hroot; [assumption|].
  pose proof (idsBuilt_inv _ Hroot) as Hcs.
  destruct (insertNode_cons root part rest value)
    as [[_ ->] | (l1 & c & l2 & E & Hn & _ & ->)];
    constructor; cbn [Children ID setChildren]; intros d Hd.
  - apply in_app_or in Hd as [Hd | [<- | []]]; [now apply Hcs|].
    rewrite insertNode_ID, insertNode_Name. split; [reflexivity|].
    apply IH, idsBuilt_leaf.
  - rewrite E in Hcs.
    apply in_app_or in Hd as [Hd | [<- | Hd]].
    + apply Hcs, in_or_app. now left.
    + destruct (Hcs c) as [Hid Hc]; [apply in_or_app; right; now left|].
      rewrite insertNode_ID, insertNode_Name, foundChild_ID, foundChild_Name.
      split; [assumption|]. now apply IH, idsBuilt_foundChild.
    + apply Hcs, in_or_app. right. now right.
Qed.

Lemma insertAll_idsBuilt ins : forall root,
  idsBuilt root -> idsBuilt (insertAll root ins).
Proof.
  induction ins as [|[parts value] ins IH]; intros root H; [assumption|].
  apply IH, insertNode_idsBuilt, H.
Qed.

Lemma insertAll_ID ins : forall root, ID (insertAll root ins) = ID root.
Proof.
  induction ins as [|[parts value] ins IH]; intros root; [reflexivity|].
  cbn [insertAll fold_left fst snd].
  change (ID (insertAll (insertNode root parts value) ins) = ID root).
  now rewrite IH, insertNode_ID.
Qed.

Lemma reach_pathID t p n :
  reach t p n -> idsBuilt t -> ID n = pathID (ID t) p.
Proof.
  induction 1 as [t | t c p n Hin _ IH]; intros Ht; [reflexivity|].
  destruct (idsBuilt_inv _ Ht _ Hin) as [Hid Hc].
  rewrite (IH Hc), Hid. reflexivity.
Qed.

Lemma pathID_plain p : forall id,
  Forall (fun seg => plainEnd seg = true) p ->
  pathID id p = (id ++ joinLeading p)%string.
Proof.
  induction p as [|seg p IH]; intros id Hp.
  - cbn. now rewrite append_nil_r.
  - inversion Hp as [|? ? Hseg Hp']; subst.
    rewrite joinLeading_cons. rewrite <- (TrimSuffix_plainEnd id seg Hseg).
    now rewrite <- IH.
Qed.

End Ids.

(** ** Sibling names *)

Section Names.

Lemma namesValid_inv t :
  namesValid t ->
  NoDup (map Name (Children t)) /\
  forall c, In c (Children t) -> validSeg (Name c) = true /\ namesValid c.
Proof. intros H. inversion H; subst. split; assumption. Qed.

Lemma namesValid_leaf id name value :
  namesValid (mkTreeNode id name value []).
Proof. constructor; [constructor | intros c []]. Qed.

Lemma namesValid_foundChild c rest value :
  namesValid c -> namesValid (foundChild c rest value).
Proof.
  intros H. unfold foundChild. destruct (lastPart rest); [|assumption].
  destruct (namesValid_inv _ H) as [Hnd Hcs]. constructor; assumption.
Qed.

Lemma NoDup_snoc (A : Type) (l : list A) (x : A) :
  NoDup l -> ~ In x l -> NoDup (l ++ [x]).
Proof.
  intros Hl Hx. apply NoDup_app; [assumption | repeat constructor; intros [] |].
  intros a Ha [<- | []]. contradiction.
Qed.

Lemma insertNode_namesValid parts : forall root value,
  Forall (fun seg => validSeg seg = true) parts ->
  namesValid root -> namesValid (insertNode root parts value).
Proof.
  induction parts as [|part rest IH]; intros root value Hparts Hroot;
    [assumption|].
  inversion Hparts as [|? ? Hpart Hrest]; subst.
  destruct (namesValid_inv _ Hroot) as [Hnd Hcs].
  destruct (insertNode_cons root part rest value)
    as [[Hnone ->] | (l1 & c & l2 & E & Hn & _ & ->)];
    constructor; cbn [Children setChildren].
  - rewrite map_app. cbn [map]. rewrite insertNode_Name. cbn [Name newNodeOf].
    apply NoDup_snoc; [assumption|].
    intros Hin. apply in_map_iff in Hin as (d & Hd & Hin).
    rewrite Forall_forall in Hnone. exact (Hnone d Hin Hd).
  - intros d Hd. apply in_app_or in Hd as [Hd | [<- | []]]; [now apply Hcs|].
    rewrite insertNode_Name. cbn [Name newNodeOf]. split; [assumption|].
    apply IH; [assumption | apply namesValid_leaf].
  - rewrite E in Hnd. rewrite map_app in *. cbn [map] in *.
    now rewrite insertNode_Name, foundChild_Name.
  - rewrite E in Hcs. intros d Hd.
    apply in_app_or in Hd as [Hd | [<- | Hd]].
    + apply Hcs, in_or_app. now left.
    + destruct (Hcs c) as [Hv Hc]; [apply in_or_app; right; now left|].
      rewrite insertNode_Name, foundChild_Name. split; [assumption|].
      apply IH; [assumption | now apply namesValid_foundChild].
    + apply Hcs, in_or_app. right. now right.
Qed.

Lemma insertAll_namesValid ins : forall root,
  Forall (fun i => Forall (fun seg => validSeg seg = true) (fst i)) ins ->
  namesValid root -> namesValid (insertAll root ins).
Proof.
  induction ins as [|[parts value] ins IH]; intros root Hins H; [assumption|].
  inversion Hins; subst. apply IH; [assumption|].
  now apply insertNode_namesValid.
Qed.

End Names.

(** ** Distinct ids *)

Section DistinctIds.

Lemma nodes_eq t : nodes t = t :: flat_map nodes (Children t).
Proof. destruct t; reflexivity. Qed.

Lemma child_ID t c :
  idsBuilt t -> namesValid t -> In c (Children t) ->
  ID c = (ID t ++ "/" ++ Name c)%string.
Proof.
  intros Hi Hn Hin.
  destruct (idsBuilt_inv _ Hi _ Hin) as [-> _].
  destruct (proj2 (namesValid_inv _ Hn) _ Hin) as [Hv _].
  apply TrimSuffix_plainEnd, validSeg_plainEnd, Hv.
Qed.

(** The id of every node of a tree starts with the id of the tree's root,
    and goes on, if at all, with a separator. *)
Lemma nodes_ID t :
  idsBuilt t -> namesValid t ->
  forall n, In n (nodes t) ->
            exists suf, ID n = (ID t ++ suf)%string /\ slashLed suf.
Proof.
  induction t as [id name value cs IH] using TreeNode_forall_ind.
  intros Hi Hn n Hin. cbn [nodes] in Hin. destruct Hin as [<- | Hin].
  - exists ""%string. now rewrite append_nil_r.
  - apply in_flat_map in Hin as (c & Hc & Hin).
    rewrite Forall_forall in IH.
    destruct (idsBuilt_inv _ Hi _ Hc) as [_ Hic].
    destruct (proj2 (namesValid_inv _ Hn) _ Hc) as [_ Hnc].
    destruct (IH c Hc Hic Hnc n Hin) as (suf & E & _).
    rewrite (child_ID _ _ Hi Hn Hc) in E. cbn [ID] in *.
    exists ("/" ++ Name c ++ suf)%string. split; [|reflexivity].
    now rewrite E, !append_assoc3.
Qed.

Lemma NoDup_ids_children id cs :
  Forall (fun c => idsBuilt c -> namesValid c -> NoDup (map ID (nodes c))) cs ->
  NoDup (map Name cs) ->
  (forall c, In c cs ->
             ID c = (id ++ "/" ++ Name c)%string /\ validSeg (Name c) = true
             /\ idsBuilt c /\ namesValid c) ->
  NoDup (map ID (flat_map nodes cs)).
Proof.
  induction cs as [|c cs IHcs]; intros Hall Hnd Hcs; [constructor|].
  inversion Hall as [|? ? Hc Hall']; subst.
  inversion Hnd as [|? ? Hfresh Hnd']; subst.
  destruct (Hcs c (or_introl eq_refl)) as (Hid & Hv & Hi & Hn).
  cbn [flat_map]. rewrite map_app. apply NoDup_app.
  - now apply Hc.
  - apply IHcs; [assumption | assumption |].
    intros d Hd. apply Hcs. now right.
  - intros x Hx1 Hx2.
    apply in_map_iff in Hx1 as (n1 & <- & Hn1).
    apply in_map_iff in Hx2 as (n2 & E & Hn2).
    apply in_flat_map in Hn2 as (d & Hd & Hn2).
    destruct (Hcs d (or_intror Hd)) as (Hidd & Hvd & Hid' & Hnd'').
    destruct (nodes_ID _ Hi Hn _ Hn1) as (s1 & E1 & L1).
    destruct (nodes_ID _ Hid' Hnd'' _ Hn2) as (s2 & E2 & L2).
    rewrite E1, E2, Hid, Hidd, !append_assoc3 in E.
    apply append_inv_l in E. cbn [append] in E. inversion E as [E'].
    apply andb_prop in Hv as [_ Hv]. apply andb_prop in Hvd as [_ Hvd].
    apply Hfresh. rewrite <- (noSlash_app_inj _ _ _ _ Hvd Hv L2 L1 E').
    now apply in_map.
Qed.

(** In a tree whose ids are built by [insertNode] from valid, pairwise
    distinct sibling names, no two nodes have the same id. *)
Lemma NoDup_ids t :
  idsBuilt t -> namesValid t -> NoDup (map ID (nodes t)).
Proof.
  induction t as [id name value cs IH] using TreeNode_forall_ind.
  intros Hi Hn. cbn [nodes map ID].
  destruct (namesValid_inv _ Hn) as [Hnd Hcs]. cbn [Children] in *.
  assert (Hall : forall c, In c cs ->
             ID c = (id ++ "/" ++ Name c)%string /\ validSeg (Name c) = true
             /\ idsBuilt c /\ namesValid c).
  { intros c Hc. destruct (Hcs c Hc) as [Hv Hnc].
    destruct (idsBuilt_inv _ Hi _ Hc) as [_ Hic].
    pose proof (child_ID _ _ Hi Hn Hc) as Hid. cbn [ID] in Hid. auto. }
  constructor; [|now apply NoDup_ids_children with (id := id)].
  intros Hin. apply in_map_iff in Hin as (n & E & Hin).
  apply in_flat_map in Hin as (c & Hc & Hin).
  destruct (Hall c Hc) as (Hid & _ & Hic & Hnc).
  destruct (nodes_ID _ Hic Hnc _ Hin) as (suf & En & _).
  rewrite En, Hid, !append_assoc3 in E.
  rewrite <- (append_nil_r id) in E at 2.
  apply append_inv_l in E. discriminate.
Qed.

End DistinctIds.

(** ** The values a tree carries *)

Section Values.

Lemma flat_map_nodes (cs : list TreeNode) :
  flat_map carried (flat_map nodes cs) = flat_map valuesOf cs.
Proof.
  induction cs as [|c cs IH]; [reflexivity|].
  cbn [flat_map]. now rewrite flat_map_app, IH.
Qed.

Lemma valuesOf_eq t :
  valuesOf t = carried t ++ flat_map valuesOf (Children t).
Proof.
  unfold valuesOf at 1. rewrite nodes_eq. cbn [flat_map].
  now rewrite flat_map_nodes.
Qed.

Lemma valuesOf_child t c kv :
  In c (Children t) -> In kv (valuesOf c) -> In kv (valuesOf t).
Proof.
  intros Hc Hkv. rewrite valuesOf_eq. apply in_or_app. right.
  apply in_flat_map. eauto.
Qed.

Lemma Permutation_insert_middle (A : Type) (k : A) (a xs ys b : list A) :
  Permutation xs (k :: ys) ->
  Permutation (a ++ xs ++ b) (k :: a ++ ys ++ b).
Proof.
  intros H. rewrite (Permutation_middle a (ys ++ b) k).
  apply Permutation_app_head.
  change (k :: ys ++ b) with ((k :: ys) ++ b).
  now apply Permutation_app_tail.
Qed.

Lemma Permutation_add_last (A : Type) (k : A) (a xs : list A) :
  Permutation xs [k] -> Permutation (a ++ xs) (k :: a).
Proof.
  intros H. rewrite (Permutation_cons_append a k).
  now apply Permutation_app_head.
Qed.

(** One insertion of a fresh key adds one pair to the values carried,
    under the id [insertNode] gives to the node of the key. *)
Lemma insertNode_values parts : forall root value,
  parts <> [] ->
  Forall (fun seg => plainEnd seg = true) parts ->
  value <> ""%string ->
  idsBuilt root ->
  ~ In (ID root ++ joinLeading parts)%string (map fst (valuesOf root)) ->
  Permutation (valuesOf (insertNode root parts value))
              (((ID root ++ joinLeading parts)%string, value) :: valuesOf root).
Proof.
  induction parts as [|part rest IH];
    intros root value Hne Hparts Hval Hroot Hfresh; [contradiction|].
  inversion Hparts as [|? ? Hpart Hrest]; subst.
  pose proof (TrimSuffix_plainEnd (ID root) part Hpart) as Htrim.
  apply String.eqb_neq in Hval.
  destruct (insertNode_cons root part rest value)
    as [[_ ->] | (l1 & c & l2 & E & Hn & _ & ->)].
  - (* a node is created *)
    rewrite (valuesOf_eq (setChildren _ _)), (valuesOf_eq root).
    cbn [Children setChildren]. rewrite flat_map_app. cbn [flat_map].
    rewrite app_nil_r.
    change (carried (setChildren root _)) with (carried root).
    rewrite app_assoc. apply Permutation_add_last.
    rewrite joinLeading_cons.
    destruct rest as [|r rest].
    + cbn [insertNode]. unfold valuesOf, newNodeOf. cbn [nodes flat_map lastPart].
      unfold carried. cbn [Value ID]. rewrite Hval, Htrim. cbn.
      rewrite append_nil_r. reflexivity.
    + rewrite <- Htrim.
      change (strings.TrimSuffix (ID root ++ "/" ++ part) "/")
        with (ID (newNodeOf root part (r :: rest) value)).
      apply (IH (newNodeOf root part (r :: rest) value) value);
        try assumption; try discriminate.
      * now apply String.eqb_neq.
      * apply idsBuilt_leaf.
      * intros [].
  - (* the node of the part exists *)
    assert (Hc : In c (Children root)).
    { rewrite E. apply in_or_app. right. now left. }
    destruct (idsBuilt_inv _ Hroot _ Hc) as [Hid Hic].
    rewrite Hn, Htrim in Hid.
    rewrite (valuesOf_eq (setChildren _ _)), (valuesOf_eq root).
    cbn [Children setChildren]. rewrite E, !flat_map_app. cbn [flat_map].
    change (carried (setChildren root _)) with (carried root).
    rewrite !app_assoc.
    rewrite <- !(app_assoc (carried root ++ flat_map valuesOf l1)).
    apply Permutation_insert_middle.
    rewrite joinLeading_cons, <- Hid.
    destruct rest as [|r rest].
    + cbn [insertNode foundChild lastPart joinLeading fold_right].
      rewrite append_nil_r.
      rewrite (valuesOf_eq (setValue c value)), (valuesOf_eq c).
      cbn [Children setValue]. unfold carried at 1.
      cbn [Value ID setValue]. rewrite Hval. cbn [app]. apply perm_skip.
      unfold carried. destruct (String.eqb_spec (Value c) "") as [_|Hv];
        [reflexivity|].
      exfalso. apply Hfresh. apply in_map_iff.
      exists (ID c, Value c). split.
      * cbn [fst joinLeading fold_right]. rewrite Hid.
        now rewrite append_nil_r.
      * apply (valuesOf_child root c _ Hc). rewrite valuesOf_eq.
        apply in_or_app. left. unfold carried.
        apply String.eqb_neq in Hv. rewrite Hv. now left.
    + cbn [foundChild lastPart].
      apply IH; try assumption; try discriminate.
      * now apply String.eqb_neq.
      * intros Hin. apply Hfresh. rewrite joinLeading_cons, <- Hid.
        apply in_map_iff in Hin as (kv & Hk & Hin).
        apply in_map_iff. exists kv. split; [assumption|].
        now apply (valuesOf_child root c).
Qed.

End Values.

(** ** The order of children *)

Section Order.

Lemma extends_intro t t' cs' added :
  ID t' = ID t -> Name t' = Name t ->
  Forall2 extends (Children t) cs' -> Children t' = cs' ++ added ->
  extends t t'.
Proof.
  destruct t as [id name v cs], t' as [id' name' v' cs''].
  cbn. intros -> -> H ->. now constructor.
Qed.

Lemma extends_inv t t' :
  extends t t' ->
  ID t' = ID t /\ Name t' = Name t /\
  exists cs' added, Forall2 extends (Children t) cs'
                    /\ Children t' = cs' ++ added.
Proof. intros H. inversion H; subst. cbn. eauto 6. Qed.

Lemma Forall2_refl_Forall (R : TreeNode -> TreeNode -> Prop) cs :
  Forall (fun c => R c c) cs -> Forall2 R cs cs.
Proof. induction 1; constructor; assumption. Qed.

Lemma extends_refl t : extends t t.
Proof.
  induction t as [id name value cs IH] using TreeNode_forall_ind.
  apply extends_intro with (cs' := cs) (added := []); try reflexivity.
  - now apply Forall2_refl_Forall.
  - cbn. now rewrite app_nil_r.
Qed.

Lemma Forall2_extends_refl cs : Forall2 extends cs cs.
Proof.
  apply Forall2_refl_Forall, Forall_forall. intros c _. apply extends_refl.
Qed.

Lemma extends_foundChild c rest value t' :
  extends (foundChild c rest value) t' -> extends c t'.
Proof.
  unfold foundChild. destruct (lastPart rest); [|auto].
  intros H. apply extends_inv in H as (Hid & Hname & cs' & added & H & E).
  now apply extends_intro with (cs' := cs') (added := added).
Qed.

(** One insertion keeps every node where it is and adds children only at
    the end of child lists. *)
Lemma insertNode_extends parts : forall root value,
  extends root (insertNode root parts value).
Proof.
  induction parts as [|part rest IH]; intros root value;
    [apply extends_refl|].
  destruct (insertNode_cons root part rest value)
    as [[_ ->] | (l1 & c & l2 & E & Hn & _ & ->)].
  - eapply extends_intro with (cs' := Children root); try reflexivity.
    apply Forall2_extends_refl.
  - apply extends_intro
      with (cs' := l1 ++ insertNode (foundChild c rest value) rest value :: l2)
           (added := []); try reflexivity.
    + rewrite E. apply Forall2_app; [apply Forall2_extends_refl|].
      constructor; [|apply Forall2_extends_refl].
      eapply extends_foundChild, IH.
    + cbn. now rewrite app_nil_r.
Qed.

Lemma extends_trans a : forall b c, extends a b -> extends b c -> extends a c.
Proof.
  induction a as [id name value cs IH] using TreeNode_forall_ind.
  intros b c Hab Hbc.
  apply extends_inv in Hab as (Hid & Hname & cs1 & add1 & H1 & E1).
  apply extends_inv in Hbc as (Hid' & Hname' & cs2 & add2 & H2 & E2).
  rewrite E1 in H2.
  apply Forall2_app_inv_l in H2 as (cs2a & cs2b & H2a & H2b & ->).
  apply extends_intro with (cs' := cs2a) (added := cs2b ++ add2).
  - congruence.
  - congruence.
  - cbn in *. clear E1 E2. revert cs2a H2a.
    induction H1 as [|x y l l' Hxy Hl IHl]; intros cs2a H2a.
    + inversion H2a; constructor.
    + inversion H2a; subst. inversion IH; subst.
      constructor; [eauto | now apply IHl].
  - now rewrite E2, app_assoc.
Qed.

Lemma insertAll_extends ins : forall root, extends root (insertAll root ins).
Proof.
  induction ins as [|[parts value] ins IH]; intros root;
    [apply extends_refl|].
  eapply extends_trans; [apply insertNode_extends | apply IH].
Qed.

Lemma Forall2_extends_names cs cs' :
  Forall2 extends cs cs' -> map Name cs' = map Name cs.
Proof.
  induction 1 as [|x y l l' Hxy _ IH]; [reflexivity|].
  cbn. apply extends_inv in Hxy as (_ & -> & _). now rewrite IH.
Qed.

End Order.

(** ** Inserting a path that is already there *)

Section Existing.

Lemma findChild_app_found part cs extra i c :
  findChild part cs = Some (i, c) ->
  findChild part (cs ++ extra) = Some (i, c).
Proof.
  revert i. induction cs as [|d cs IH]; cbn; intros i H; [discriminate|].
  destruct (String.eqb (Name d) part); [assumption|].
  destruct (findChild part cs) as [[j e]|]; [|discriminate].
  inversion H; subst. now rewrite (IH j eq_refl).
Qed.

(** Replacing a child by one of the same name does not move what the
    search finds. *)
Lemma findChild_replace part l1 d n l2 i c :
  Name n = Name d ->
  findChild part (l1 ++ d :: l2) = Some (i, c) ->
  (c = d /\ findChild part (l1 ++ n :: l2) = Some (i, n))
  \/ findChild part (l1 ++ n :: l2) = Some (i, c).
Proof.
  intros Hn. revert i. induction l1 as [|e l1 IH]; cbn; intros i H.
  - rewrite Hn. destruct (String.eqb (Name d) part).
    + inversion H; subst. now left.
    + now right.
  - destruct (String.eqb (Name e) part); [now right|].
    destruct (findChild part (l1 ++ d :: l2)) as [[j x]|]; [|discriminate].
    inversion H; subst.
    destruct (IH j eq_refl) as [[-> ->] | ->]; [left | right]; auto.
Qed.

Lemma hasPath_Children a b parts :
  Children a = Children b -> hasPath a parts -> hasPath b parts.
Proof. destruct parts; cbn; [auto|]. now intros ->. Qed.

(** After an insertion the path inserted is in the tree. *)
Lemma hasPath_insertNode parts : forall root value,
  hasPath (insertNode root parts value) parts.
Proof.
  induction parts as [|part rest IH]; intros root value; [exact I|].
  destruct (insertNode_cons root part rest value)
    as [[Hnone ->] | (l1 & c & l2 & E & Hn & Hl1 & ->)];
    cbn [hasPath Children setChildren].
  - rewrite (findChild_absent _ _ _ Hnone). cbn [findChild].
    rewrite insertNode_Name. cbn [newNodeOf Name].
    rewrite String.eqb_refl. apply IH.
  - rewrite findChild_first;
      [apply IH | assumption
       | now rewrite insertNode_Name, foundChild_Name].
Qed.

(** A path of the tree stays one through any insertion. *)
Lemma hasPath_preserved parts : forall root q value,
  hasPath root parts -> hasPath (insertNode root q value) parts.
Proof.
  induction parts as [|part rest IH]; intros root q value H; [exact I|].
  destruct q as [|qp qrest]; [assumption|].
  cbn [hasPath] in H.
  destruct (findChild part (Children root)) as [[i c]|] eqn:F; [|contradiction].
  destruct (insertNode_cons root qp qrest value)
    as [[_ ->] | (l1 & d & l2 & E & Hn & _ & ->)];
    cbn [hasPath Children setChildren].
  - now rewrite (findChild_app_found _ _ _ _ _ F).
  - rewrite E in F.
    destruct (findChild_replace part l1 d
                (insertNode (foundChild d qrest value) qrest value) l2 i c)
      as [[-> ->] | ->]; try assumption.
    + now rewrite insertNode_Name, foundChild_Name.
    + apply IH. eapply hasPath_Children; [|exact H].
      now rewrite foundChild_Children.
Qed.

Lemma hasPath_insertAll parts ins : forall root,
  hasPath root parts -> hasPath (insertAll root ins) parts.
Proof.
  induction ins as [|[q value] ins IH]; intros root H; [assumption|].
  apply IH, hasPath_preserved, H.
Qed.

(** On a path of the tree, [insertNode] only writes the value at its end. *)
Lemma insertNode_overwrite parts : forall root value,
  hasPath root parts -> insertNode root parts value = overwrite root parts value.
Proof.
  induction parts as [|part rest IH]; intros root value H; [reflexivity|].
  cbn [hasPath insertNode overwrite] in *.
  destruct (findChild part (Children root)) as [[i c]|]; [|contradiction].
  destruct rest as [|r rest]; [reflexivity|].
  cbn [lastPart]. now rewrite (IH c value H).
Qed.

Lemma shape_eq t :
  shape t = mkTreeNode (ID t) (Name t) "" (map shape (Children t)).
Proof. destruct t; reflexivity. Qed.

Lemma overwrite_shape parts : forall root value,
  shape (overwrite root parts value) = shape root.
Proof.
  induction parts as [|part rest IH]; intros root value; [reflexivity|].
  cbn [overwrite].
  destruct (findChild part (Children root)) as [[i c]|] eqn:F; [|reflexivity].
  destruct (findChild_Some _ _ _ _ F) as (l1 & l2 & E & <- & _ & _).
  rewrite E, replaceAt_middle, (shape_eq (setChildren _ _)), (shape_eq root).
  cbn [ID Name Children setChildren]. rewrite E, !map_app. cbn [map].
  do 3 f_equal. destruct rest as [|r rest]; [|apply IH].
  now rewrite (shape_eq (setValue _ _)), (shape_eq c).
Qed.

Lemma overwrite_Name parts : forall root value,
  Name (overwrite root parts value) = Name root.
Proof.
  destruct parts as [|part rest]; intros root value; [reflexivity|].
  cbn [overwrite].
  destruct (findChild part (Children root)) as [[i c]|]; reflexivity.
Qed.

Lemma overwrite_nodeAt parts : forall root value,
  parts <> [] -> hasPath root parts ->
  exists n, nodeAt (overwrite root parts value) parts = Some n
            /\ Value n = value.
Proof.
  induction parts as [|part rest IH]; intros root value Hne H; [contradiction|].
  cbn [hasPath overwrite nodeAt] in *.
  destruct (findChild part (Children root)) as [[i c]|] eqn:F; [|contradiction].
  destruct (findChild_Some _ _ _ _ F) as (l1 & l2 & E & <- & Hn & Hl1).
  cbn [Children setChildren]. rewrite E, replaceAt_middle.
  destruct rest as [|r rest].
  - rewrite findChild_first by assumption. cbn. eauto.
  - rewrite findChild_first; [|assumption | now rewrite overwrite_Name].
    apply IH; [discriminate | assumption].
Qed.

End Existing.

(** ** The tree of a listing *)

Section Listing.

Lemma buildTree_snoc kvs kv :
  buildTree (kvs ++ [kv]) = insertKv (buildTree kvs) kv.
Proof. unfold buildTree. now rewrite fold_left_app. Qed.

(** The tree built from well-formed, pairwise distinct keys with non-empty
    values carries the pairs it was built from. *)
Lemma buildTree_values kvs :
  NoDup (map fst kvs) ->
  Forall (fun kv => wellFormedKey (fst kv) = true /\ snd kv <> ""%string) kvs ->
  idsBuilt (buildTree kvs) /\ ID (buildTree kvs) = ""%string
  /\ Value (buildTree kvs) = ""%string
  /\ Permutation (valuesOf (buildTree kvs)) kvs.
Proof.
  induction kvs as [|[key value] kvs IH] using rev_ind; intros Hnd Hall.
  - split; [apply idsBuilt_leaf|]. split; [reflexivity|].
    split; [reflexivity | constructor].
  - rewrite map_app in Hnd. cbn [map fst] in Hnd.
    apply (Permutation_NoDup
             (Permutation_sym (Permutation_cons_append (map fst kvs) key)))
      in Hnd.
    inversion Hnd as [|? ? Hfresh Hnd']; subst.
    apply Forall_app in Hall as [Hall Hkv].
    inversion Hkv as [|? ? [Hwf Hval] _]; subst. cbn [fst snd] in *.
    destruct (IH Hnd' Hall) as (Hi & Hid & Hv & Hp).
    destruct (wellFormedKey_parts key Hwf) as (Hne & Hsegs & Hkey).
    rewrite buildTree_snoc. unfold insertKv. cbn [fst snd].
    split; [|split; [|split]].
    + now apply insertNode_idsBuilt.
    + now rewrite insertNode_ID.
    + now rewrite insertNode_Value.
    + assert (Hk : key = (ID (buildTree kvs)
                           ++ joinLeading (tl (strings.Split key slash)))%string)
        by (now rewrite Hid).
      apply Permutation_trans with ((key, value) :: valuesOf (buildTree kvs)).
      * rewrite Hk at 2.
        apply insertNode_values; try assumption.
        -- eapply Forall_impl; [|exact Hsegs].
           intros seg. apply validSeg_plainEnd.
        -- rewrite <- Hk. intros Hin. apply Hfresh.
           eapply Permutation_in; [|exact Hin].
           now apply Permutation_map.
      * apply Permutation_trans with ((key, value) :: kvs).
        -- now apply perm_skip.
        -- apply Permutation_cons_append.
Qed.

Lemma flatten_Children t :
  Value t = ""%string -> flatten (Children t) = valuesOf t.
Proof.
  intros Hv. rewrite valuesOf_eq. unfold flatten, nodesOf, carried at 2.
  rewrite Hv. cbn. apply flat_map_nodes.
Qed.

End Listing.

(** * The claims *)

(** C1, as stated, fails: the id of a child [a] of the root is ["/a"], not
    the segments of its path joined by the separator (["a"]); the leading
    separator is not trimmed. *)
Lemma C1_joined_ids_counterexample :
  ~ (forall ins p n, reach (insertAll freshRoot ins) p n -> ID n = joinPath p).
Proof.
  intros H.
  specialize (H [(["a"], "v")] ["a"] (mkTreeNode "/a" "a" "v" [])).
  assert (R : reach (insertAll freshRoot [(["a"], "v")]) ["a"]
                    (mkTreeNode "/a" "a" "v" [])).
  { apply (reach_child (insertAll freshRoot [(["a"], "v")])
                       (mkTreeNode "/a" "a" "v" []) [] _).
    - left. reflexivity.
    - apply reach_here. }
  specialize (H R). discriminate H.
Qed.

(** C1, amended: for every sequence of insertions into a fresh root, the id
    of the node at path [p] is the empty id of the root extended, segment
    by segment, by the separator and the segment, one trailing separator
    trimmed at each step; no leading separator is trimmed.  When the
    segments of [p] are not empty and do not end with the separator, this
    is every segment of [p] preceded by the separator: ["/a"] for a child
    [a] of the root, ["/a/b"] below it. *)
Theorem C1_node_ids :
  forall ins p n,
    reach (insertAll freshRoot ins) p n ->
    ID n = pathID "" p
    /\ (Forall (fun seg => plainEnd seg = true) p -> ID n = joinLeading p).
Proof.
  intros ins p n R.
  assert (E : ID n = pathID "" p).
  { rewrite (reach_pathID _ _ _ R
               (insertAll_idsBuilt ins freshRoot (idsBuilt_leaf _ _ _))).
    now rewrite insertAll_ID. }
  split; [assumption|].
  intros Hp. rewrite E. apply (pathID_plain p "" Hp).
Qed.

Lemma C1_node_ids_witness :
  reach (insertAll freshRoot [(["a"; "b"], "v")]) ["a"; "b"]
        (mkTreeNode "/a/b" "b" "v" [])
  /\ ID (mkTreeNode "/a/b" "b" "v" []) = joinLeading ["a"; "b"].
Proof.
  assert (R : reach (insertAll freshRoot [(["a"; "b"], "v")]) ["a"; "b"]
                    (mkTreeNode "/a/b" "b" "v" [])).
  { apply (reach_child (insertAll freshRoot [(["a"; "b"], "v")])
             (mkTreeNode "/a" "a" "" [mkTreeNode "/a/b" "b" "v" []]) ["b"] _).
    - left. reflexivity.
    - apply (reach_child
               (mkTreeNode "/a" "a" "" [mkTreeNode "/a/b" "b" "v" []])
               (mkTreeNode "/a/b" "b" "v" []) [] _).
      + left. reflexivity.
      + apply reach_here. }
  split; [exact R|].
  apply (proj2 (C1_node_ids [(["a"; "b"], "v")] ["a"; "b"] _ R)).
  repeat constructor.
Defined.

(** C2: the handler tests the key for emptiness before it removes the
    leading separator.  The empty key is rejected with no store call; the
    key ["/"] passes the test, is trimmed to the empty key, and the store
    is asked for it: the response is never the malformed-request one. *)
Theorem C2_slash_key_reaches_store :
  forall client : Client,
    FetchValueForKeyHandler client "" =
      mkRun [] (mkResponse StatusBadRequest (ErrorBody "Key is required"))
    /\ storeCalls (FetchValueForKeyHandler client "/") = [mkGetRequest "" false]
    /\ status (response (FetchValueForKeyHandler client "/")) <> StatusBadRequest.
Proof.
  intros client. split; [reflexivity|].
  unfold FetchValueForKeyHandler. cbn [String.eqb].
  change (strings.TrimPrefix "/" "/") with ""%string.
  destruct (client (mkGetRequest "" false)) as [|[|kv kvs]];
    split; try reflexivity; discriminate.
Qed.

(** C3, as stated, fails: inserting the segments ["a"] and [""] (the key
    ["/a/"]) gives the node [a] and its child the same id ["/a"], even
    with the root left out. *)
Lemma C3_distinct_ids_counterexample :
  ~ (forall ins, NoDup (map ID (nodesOf (Children (insertAll freshRoot ins))))).
Proof.
  intros H. specialize (H [(["a"; ""], "v")]).
  vm_compute in H. inversion H as [|x l Hin _]. apply Hin. left. reflexivity.
Qed.

(** C3, amended: for every sequence of insertions into a fresh root whose
    segments are all valid (not empty, no separator inside), the ids of the
    nodes of the resulting tree, the root included, are pairwise
    distinct. *)
Theorem C3_distinct_ids :
  forall ins,
    Forall (fun i => Forall (fun seg => validSeg seg = true) (fst i)) ins ->
    NoDup (map ID (nodes (insertAll freshRoot ins))).
Proof.
  intros ins Hins. apply NoDup_ids.
  - apply insertAll_idsBuilt, idsBuilt_leaf.
  - apply insertAll_namesValid; [assumption | apply namesValid_leaf].
Qed.

Lemma C3_distinct_ids_witness :
  NoDup (map ID (nodes (insertAll freshRoot
                          [(["a"; "b"], "1"); (["a"], "2"); (["c"], "3")]))).
Proof.
  apply (C3_distinct_ids [(["a"; "b"], "1"); (["a"], "2"); (["c"], "3")]).
  repeat constructor.
Defined.

(** C4, as stated, fails: the one pair with key ["/a/"] is not among the
    pairs of the tree built from it (the node has the id ["/a"]). *)
Lemma C4_round_trip_counterexample :
  ~ (forall kvs, NoDup (map fst kvs) ->
                 forall kv, In kv kvs <-> In kv (flatten (Children (buildTree kvs)))).
Proof.
  intros H.
  assert (Hnd : NoDup (map fst [("/a/", "v")])) by (repeat constructor; intros []).
  destruct (proj1 (H [("/a/", "v")] Hnd ("/a/", "v")) (or_introl eq_refl))
    as [E | []].
  vm_compute in E. discriminate E.
Qed.

(** C4, amended: when the store answers the listing with pairs whose keys
    are pairwise distinct and well formed (a separator, then one or more
    non-empty segments separated by the separator) and whose values are
    not empty, the listing succeeds and the [(id, value)] pairs of the
    nodes of the response that carry a value are the pairs of the store,
    each once. *)
Theorem C4_round_trip :
  forall (client : Client) kvs,
    client (mkGetRequest "/" true) = GetOk kvs ->
    NoDup (map fst kvs) ->
    Forall (fun kv => wellFormedKey (fst kv) = true /\ snd kv <> ""%string) kvs ->
    exists nodes,
      response (FetchKeysHandler client) = mkResponse StatusOK (NodesBody nodes)
      /\ Permutation (flatten nodes) kvs.
Proof.
  intros client kvs Hget Hnd Hall.
  destruct (buildTree_values kvs Hnd Hall) as (_ & _ & Hv & Hp).
  exists (Children (buildTree kvs)). split.
  - unfold FetchKeysHandler. now rewrite Hget.
  - now rewrite (flatten_Children _ Hv).
Qed.

Lemma C4_round_trip_witness :
  exists nodes,
    response (FetchKeysHandler
                (fun _ => GetOk [("/a", "1"); ("/a-b", "2"); ("/a/b", "3")]))
    = mkResponse StatusOK (NodesBody nodes)
    /\ Permutation (flatten nodes) [("/a", "1"); ("/a-b", "2"); ("/a/b", "3")].
Proof.
  apply (C4_round_trip
           (fun _ => GetOk [("/a", "1"); ("/a-b", "2"); ("/a/b", "3")])
           [("/a", "1"); ("/a-b", "2"); ("/a/b", "3")]).
  - reflexivity.
  - repeat constructor; cbn; intros H;
      repeat (destruct H as [H | H]; [discriminate H|]); exact H.
  - repeat constructor; cbn; discriminate.
Defined.

(** C5: through any sequence of insertions every node stays at its
    position under its parent, with its id and name, and children are only
    added at the end of child lists ([extends]); in particular the names of
    the children of the root after the insertions are the names before,
    in the same order, followed by those of the added children.  Inserting
    [b], [a] and [a/c] in this order into a fresh root gives the top-level
    children [b] then [a], and [a] has the one child [c]. *)
Theorem C5_children_in_creation_order :
  (forall root ins,
      extends root (insertAll root ins)
      /\ exists added,
          map Name (Children (insertAll root ins))
          = map Name (Children root) ++ map Name added)
  /\ (forall v1 v2 v3,
         exists b a c,
           Children (insertAll freshRoot
                       [(["b"], v1); (["a"], v2); (["a"; "c"], v3)]) = [b; a]
           /\ Name b = "b"%string /\ Children b = []
           /\ Name a = "a"%string /\ Children a = [c]
           /\ Name c = "c"%string).
Proof.
  split.
  - intros root ins. pose proof (insertAll_extends ins root) as H.
    split; [assumption|].
    apply extends_inv in H as (_ & _ & cs' & added & H & ->).
    exists added. now rewrite map_app, (Forall2_extends_names _ _ H).
  - intros v1 v2 v3. do 3 eexists. cbn. repeat split.
Qed.

(** C7: after a path was inserted with a value, and any insertions after
    it, inserting the same path again with a second value gives the tree
    as it was with only the value of the node of the path replaced
    ([overwrite]): the tree without its values ([shape]) is the same, so no
    node is added or removed and no id, name or child list changes, and
    the node of the path holds the second value.  For the empty path the
    tree is the same. *)
Theorem C7_same_path_overwrites_value :
  forall root parts v1 between v2,
    let t1 := insertAll (insertNode root parts v1) between in
    let t2 := insertNode t1 parts v2 in
    t2 = overwrite t1 parts v2
    /\ shape t2 = shape t1
    /\ match parts with
       | [] => t2 = t1
       | _ :: _ => exists n, nodeAt t2 parts = Some n /\ Value n = v2
       end.
Proof.
  intros root parts v1 between v2 t1 t2.
  assert (Hp : hasPath t1 parts)
    by (apply hasPath_insertAll, hasPath_insertNode).
  assert (E : t2 = overwrite t1 parts v2)
    by (now apply insertNode_overwrite).
  split; [assumption|]. split.
  - rewrite E. apply overwrite_shape.
  - destruct parts as [|part rest] eqn:Eparts; [reflexivity|].
    rewrite E. apply overwrite_nodeAt; [discriminate | assumption].
Qed.

(** C8: for a key that passes the validation (it is not empty), the
    lookup that gets zero entries from the store answers NotFound, which
    is neither the answer to a store error nor a success, whatever the
    value, the empty string included; the lookup that gets at least one
    entry answers with the value of the first one, as a success. *)
Theorem C8_lookup_outcomes :
  forall (client : Client) key,
    key <> ""%string ->
    let req := mkGetRequest (strings.TrimPrefix key "/") false in
    let notFound := mkResponse StatusNotFound (ErrorBody "Key not found") in
    (client req = GetOk [] ->
     FetchValueForKeyHandler client key = mkRun [req] notFound)
    /\ (forall kv kvs,
           client req = GetOk (kv :: kvs) ->
           FetchValueForKeyHandler client key
           = mkRun [req] (mkResponse StatusOK (ValueBody (snd kv))))
    /\ (client req = GetError ->
        FetchValueForKeyHandler client key
        = mkRun [req] (mkResponse StatusInternalServerError
                                  (ErrorBody "Internal Server Error")))
    /\ notFound <> mkResponse StatusInternalServerError
                              (ErrorBody "Internal Server Error")
    /\ (forall value, notFound <> mkResponse StatusOK (ValueBody value)).
Proof.
  intros client key Hkey req notFound.
  apply String.eqb_neq in Hkey.
  unfold FetchValueForKeyHandler. rewrite Hkey. fold req.
  repeat split.
  - now intros ->.
  - now intros kv kvs ->.
  - now intros ->.
  - discriminate.
  - discriminate.
Qed.

Lemma C8_lookup_outcomes_witness :
  FetchValueForKeyHandler (fun _ => GetOk []) "/missing/key"
  = mkRun [mkGetRequest "missing/key" false]
          (mkResponse StatusNotFound (ErrorBody "Key not found")).
Proof.
  apply (C8_lookup_outcomes (fun _ => GetOk []) "/missing/key").
  - discriminate.
  - reflexivity.
Defined.

(** C9: when the store answers the listing with zero entries, the handler
    answers with a success and the empty sequence of top-level nodes. *)
Theorem C9_empty_store_lists_nothing :
  forall client : Client,
    client (mkGetRequest "/" true) = GetOk [] ->
    response (FetchKeysHandler client) = mkResponse StatusOK (NodesBody []).
Proof.
  intros client H. unfold FetchKeysHandler. now rewrite H.
Qed.

Lemma C9_empty_store_lists_nothing_witness :
  response (FetchKeysHandler (fun _ => GetOk []))
  = mkResponse StatusOK (NodesBody []).
Proof.
  apply (C9_empty_store_lists_nothing (fun _ => GetOk [])). reflexivity.
Defined.

(** C10: an insertion with no segment leaves the tree as it is, whatever
    the tree and the value: the loop of [insertNode] has no iteration, and
    the value is dropped.  The empty key, the one raw key that splits
    into no segment, is such an insertion. *)
Theorem C10_empty_path_is_skipped :
  forall root value,
    insertNode root [] value = root
    /\ insertKv root (""%string, value) = root.
Proof. intros root value. split; reflexivity. Qed.

(** * Further properties of the builder and the handlers *)

(** ** Finding what was inserted, and what an insertion leaves alone *)

Section InsertLookup.

Lemma nodeAt_foundChild c rest value q n :
  q <> rest -> nodeAt c q = Some n ->
  nodeAt (foundChild c rest value) q = Some n.
Proof.
  intros Hq H. unfold foundChild. destruct rest as [|r rest]; cbn [lastPart].
  - destruct q as [|qp qr]; [contradiction | exact H].
  - exact H.
Qed.

Lemma insertNode_nodeAt parts : forall root value,
  parts <> [] ->
  exists n, nodeAt (insertNode root parts value) parts = Some n
            /\ Value n = value /\ Name n = last parts ""%string.
Proof.
  induction parts as [|part rest IH]; intros root value Hne; [contradiction|].
  assert (Hend : forall x, Name x = part ->
            (rest = [] -> Value x = value) ->
            exists n, nodeAt (insertNode x rest value) rest = Some n
                      /\ Value n = value
                      /\ Name n = last (part :: rest) ""%string).
  { intros x Hname Hval. destruct rest as [|r rest].
    - exists x. cbn. auto.
    - destruct (IH x value) as (n & Hn & Hv & Hl); [discriminate|].
      exists n. auto. }
  destruct (insertNode_cons root part rest value)
    as [[Hnone ->] | (l1 & c & l2 & E & Hn & Hl1 & ->)];
    cbn [nodeAt Children setChildren].
  - rewrite (findChild_absent _ _ _ Hnone). cbn [findChild].
    rewrite insertNode_Name. cbn [newNodeOf Name]. rewrite String.eqb_refl.
    apply Hend; [reflexivity|]. now intros ->.
  - rewrite findChild_first;
      [| assumption | now rewrite insertNode_Name, foundChild_Name].
    apply Hend; [now rewrite foundChild_Name|]. now intros ->.
Qed.

(** An insertion changes the id, the name and the value of no node but the
    one at the end of its path. *)
Lemma insertNode_frame q : forall root parts value n,
  nodeAt root q = Some n -> q <> parts ->
  exists n', nodeAt (insertNode root parts value) q = Some n'
             /\ ID n' = ID n /\ Name n' = Name n /\ Value n' = Value n.
Proof.
  induction q as [|qp qr IH]; intros root parts value n H Hq.
  - inversion H; subst. exists (insertNode n parts value).
    cbn [nodeAt]. rewrite insertNode_ID, insertNode_Name, insertNode_Value.
    auto.
  - destruct parts as [|pp pr]; [exists n; auto|].
    cbn [nodeAt] in H.
    destruct (findChild qp (Children root)) as [[i c]|] eqn:F; [|discriminate].
    destruct (insertNode_cons root pp pr value)
      as [[_ ->] | (l1 & d & l2 & E & Hn & _ & ->)];
      cbn [nodeAt Children setChildren].
    + rewrite (findChild_app_found _ _ _ _ _ F). exists n. auto.
    + rewrite E in F.
      destruct (findChild_Some _ _ _ _ F) as (_ & _ & _ & _ & Hc & _).
      destruct (findChild_replace qp l1 d
                  (insertNode (foundChild d pr value) pr value) l2 i c)
        as [[-> ->] | ->]; try assumption.
      * now rewrite insertNode_Name, foundChild_Name.
      * assert (Hqr : qr <> pr) by (intros ->; apply Hq; congruence).
        apply IH; [|assumption]. now apply nodeAt_foundChild.
      * exists n. auto.
Qed.

Lemma insertNode_twice parts : forall root value,
  insertNode (insertNode root parts value) parts value
  = insertNode root parts value.
Proof.
  induction parts as [|part rest IH]; intros root value; [reflexivity|].
  assert (Hend : forall x, (rest = [] -> Value x = value) ->
            insertNode (foundChild (insertNode x rest value) rest value)
                       rest value
            = insertNode x rest value).
  { intros x Hval. destruct rest as [|r rest].
    - cbn. unfold setValue. rewrite <- (Hval eq_refl). now destruct x.
    - cbn [foundChild lastPart]. apply IH. }
  destruct (insertNode_cons root part rest value)
    as [[Hnone ->] | (l1 & c & l2 & E & Hn & Hl1 & ->)].
  - cbn [insertNode Children setChildren].
    rewrite (findChild_absent _ _ _ Hnone). cbn [findChild].
    rewrite insertNode_Name. cbn [newNodeOf Name]. rewrite String.eqb_refl.
    rewrite Nat.add_0_r.
    fold (newNodeOf root part rest value).
    fold (foundChild (insertNode (newNodeOf root part rest value) rest value)
                     rest value).
    rewrite Hend by (now intros ->).
    rewrite replaceAt_middle. reflexivity.
  - cbn [insertNode Children setChildren].
    rewrite findChild_first;
      [| assumption | now rewrite insertNode_Name, foundChild_Name].
    fold (foundChild (insertNode (foundChild c rest value) rest value)
                     rest value).
    rewrite Hend by (now intros ->).
    rewrite replaceAt_middle. reflexivity.
Qed.

End InsertLookup.

(** ** The paths of a built tree *)

Section Paths.

Lemma reach_leaf id name value p n :
  reach (mkTreeNode id name value []) p n -> p = [].
Proof. intros H. inversion H as [|? ? ? ? Hin]; subst; [reflexivity | destruct Hin]. Qed.

Lemma reach_foundChild c rest value p n :
  reach (foundChild c rest value) p n -> exists n0, reach c p n0.
Proof.
  intros H. inversion H as [|? d p' ? Hin Hd]; subst.
  - exists c. apply reach_here.
  - rewrite foundChild_Children in Hin. exists n.
    now apply reach_child.
Qed.

(** A path of the tree after an insertion was a path before it, or is a
    non-empty prefix of the path inserted. *)
Lemma reach_insertNode_inv parts : forall root value p n,
  reach (insertNode root parts value) p n ->
  (exists n0, reach root p n0)
  \/ (p <> [] /\ exists suffix, parts = p ++ suffix).
Proof.
  induction parts as [|part rest IH]; intros root value p n H; [eauto|].
  destruct (insertNode_cons root part rest value)
    as [[_ E] | (l1 & c & l2 & Ecs & Hn & _ & E)]; rewrite E in H; clear E;
    inversion H as [|? d p' ? Hin Hd]; subst;
    try (left; exists root; apply reach_here);
    cbn [Children setChildren] in Hin.
  - apply in_app_or in Hin as [Hin | [<- | []]].
    + left. exists n. now apply reach_child.
    + right. split; [discriminate|].
      rewrite insertNode_Name. cbn [newNodeOf Name].
      destruct (IH _ _ _ _ Hd) as [[n0 H0] | [_ [suffix ->]]].
      * apply reach_leaf in H0. subst p'. now exists rest.
      * now exists suffix.
  - assert (Hold : forall x, In x l1 \/ In x l2 -> In x (Children root)).
    { intros x Hx. rewrite Ecs. apply in_or_app.
      destruct Hx; [now left | right; now right]. }
    apply in_app_or in Hin as [Hin | [<- | Hin]].
    + left. exists n. apply reach_child; auto.
    + rewrite insertNode_Name, foundChild_Name.
      destruct (IH _ _ _ _ Hd) as [[n0 H0] | [_ [suffix ->]]].
      * left. apply reach_foundChild in H0 as [n1 H1]. exists n1.
        apply reach_child; [|assumption].
        rewrite Ecs. apply in_or_app. right. now left.
      * right. split; [discriminate|]. now exists suffix.
    + left. exists n. apply reach_child; auto.
Qed.

Lemma reach_insertAll_inv ins : forall root p n,
  reach (insertAll root ins) p n ->
  (exists n0, reach root p n0)
  \/ (p <> [] /\ exists i suffix, In i ins /\ fst i = p ++ suffix).
Proof.
  induction ins as [|[parts value] ins IH]; intros root p n H; [eauto|].
  destruct (IH _ _ _ H) as [[n0 H0] | (Hp & i & suffix & Hi & E)].
  - destruct (reach_insertNode_inv _ _ _ _ _ H0) as [? | (Hp & suffix & E)];
      [now left|].
    right. split; [assumption|]. exists (parts, value), suffix.
    split; [now left | assumption].
  - right. split; [assumption|]. exists i, suffix. split; [now right | assumption].
Qed.

Lemma hasPath_prefix p : forall t suffix,
  hasPath t (p ++ suffix) -> hasPath t p.
Proof.
  induction p as [|part p IH]; intros t suffix H; [exact I|].
  cbn [app hasPath] in *.
  destruct (findChild part (Children t)) as [[i c]|]; [|contradiction].
  eapply IH, H.
Qed.

Lemma hasPath_nodeAt p : forall t,
  hasPath t p -> exists n, nodeAt t p = Some n.
Proof.
  induction p as [|part p IH]; intros t H; [now exists t|].
  cbn [hasPath nodeAt] in *.
  destruct (findChild part (Children t)) as [[i c]|]; [|contradiction].
  now apply IH.
Qed.

Lemma nodeAt_reach p : forall t n, nodeAt t p = Some n -> reach t p n.
Proof.
  induction p as [|part p IH]; intros t n H.
  - inversion H; subst. apply reach_here.
  - cbn [nodeAt] in H.
    destruct (findChild part (Children t)) as [[i c]|] eqn:F; [|discriminate].
    destruct (findChild_Some _ _ _ _ F) as (l1 & l2 & E & _ & <- & _).
    apply reach_child; [|now apply IH].
    rewrite E. apply in_or_app. right. now left.
Qed.

Lemma hasPath_insertAll_member ins : forall root i,
  In i ins -> hasPath (insertAll root ins) (fst i).
Proof.
  induction ins as [|[parts value] ins IH]; intros root i Hi; [destruct Hi|].
  destruct Hi as [<- | Hi].
  - change (hasPath (insertAll (insertNode root parts value) ins) parts).
    apply hasPath_insertAll, hasPath_insertNode.
  - now apply (IH (insertNode root parts value)).
Qed.

End Paths.

(** ** One node for a path *)

Section OneNode.

Lemma siblingsDistinct_inv t :
  siblingsDistinct t ->
  NoDup (map Name (Children t)) /\
  forall c, In c (Children t) -> siblingsDistinct c.
Proof. intros H. inversion H; subst. split; assumption. Qed.

Lemma siblingsDistinct_leaf id name value :
  siblingsDistinct (mkTreeNode id name value []).
Proof. constructor; [constructor | intros c []]. Qed.

Lemma siblingsDistinct_foundChild c rest value :
  siblingsDistinct c -> siblingsDistinct (foundChild c rest value).
Proof.
  intros H. unfold foundChild. destruct (lastPart rest); [|assumption].
  destruct (siblingsDistinct_inv _ H) as [Hnd Hcs]. constructor; assumption.
Qed.

Lemma insertNode_siblingsDistinct parts : forall root value,
  siblingsDistinct root -> siblingsDistinct (insertNode root parts value).
Proof.
  induction parts as [|part rest IH]; intros root value Hroot; [assumption|].
  destruct (siblingsDistinct_inv _ Hroot) as [Hnd Hcs].
  destruct (insertNode_cons root part rest value)
    as [[Hnone ->] | (l1 & c & l2 & E & Hn & _ & ->)];
    constructor; cbn [Children setChildren].
  - rewrite map_app. cbn [map]. rewrite insertNode_Name. cbn [Name newNodeOf].
    apply NoDup_snoc; [assumption|].
    intros Hin. apply in_map_iff in Hin as (d & Hd & Hin).
    rewrite Forall_forall in Hnone. exact (Hnone d Hin Hd).
  - intros d Hd. apply in_app_or in Hd as [Hd | [<- | []]]; [now apply Hcs|].
    apply IH, siblingsDistinct_leaf.
  - rewrite E in Hnd. rewrite map_app in *. cbn [map] in *.
    now rewrite insertNode_Name, foundChild_Name.
  - rewrite E in Hcs. intros d Hd.
    apply in_app_or in Hd as [Hd | [<- | Hd]].
    + apply Hcs, in_or_app. now left.
    + apply IH, siblingsDistinct_foundChild, Hcs, in_or_app. right. now left.
    + apply Hcs, in_or_app. right. now right.
Qed.

Lemma insertAll_siblingsDistinct ins : forall root,
  siblingsDistinct root -> siblingsDistinct (insertAll root ins).
Proof.
  induction ins as [|[parts value] ins IH]; intros root H; [assumption|].
  apply IH, insertNode_siblingsDistinct, H.
Qed.

Lemma NoDup_map_eq (A B : Type) (f : A -> B) (l : list A) a b :
  NoDup (map f l) -> In a l -> In b l -> f a = f b -> a = b.
Proof.
  induction l as [|x l IH]; cbn; intros Hnd Ha Hb E; [destruct Ha|].
  inversion Hnd as [|? ? Hx Hnd']; subst.
  destruct Ha as [-> | Ha], Hb as [-> | Hb]; auto.
  - exfalso. apply Hx. rewrite E. now apply in_map.
  - exfalso. apply Hx. rewrite <- E. now apply in_map.
Qed.

Lemma reach_unique t p n1 :
  reach t p n1 -> siblingsDistinct t ->
  (forall n2, reach t p n2 -> n1 = n2) /\ siblingsDistinct n1.
Proof.
  induction 1 as [t | t c p n Hin _ IH]; intros Ht.
  - split; [|assumption]. intros n2 H2. now inversion H2.
  - destruct (siblingsDistinct_inv _ Ht) as [Hnd Hcs].
    destruct (IH (Hcs c Hin)) as [Huniq Hn]. split; [|assumption].
    intros n2 H2. inversion H2 as [|? d ? ? Hd Hreach Hname]; subst.
    assert (d = c) as ->
      by (now apply (NoDup_map_eq _ _ Name (Children t))).
    now apply Huniq.
Qed.

End OneNode.

(** ** The number of nodes *)

Section Count.

Lemma nodes_length t :
  List.length (nodes t) = S (List.length (flat_map nodes (Children t))).
Proof. now rewrite nodes_eq. Qed.

Lemma foundChild_nodes_length c rest value :
  List.length (nodes (foundChild c rest value)) = List.length (nodes c).
Proof. now rewrite !nodes_length, foundChild_Children. Qed.

Lemma insertNode_nodes_length parts : forall root value,
  List.length (nodes root) <= List.length (nodes (insertNode root parts value))
  /\ List.length (nodes (insertNode root parts value))
     <= List.length (nodes root) + List.length parts.
Proof.
  induction parts as [|part rest IH]; intros root value; [cbn; lia|].
  destruct (insertNode_cons root part rest value)
    as [[_ ->] | (l1 & c & l2 & E & _ & _ & ->)];
    rewrite (nodes_length (setChildren _ _)), (nodes_length root);
    cbn [Children setChildren List.length].
  - rewrite flat_map_app, length_app. cbn [flat_map]. rewrite app_nil_r.
    specialize (IH (newNodeOf root part rest value) value).
    cbn [newNodeOf nodes flat_map List.length] in IH. lia.
  - rewrite E, !flat_map_app, !length_app. cbn [flat_map].
    rewrite !length_app.
    specialize (IH (foundChild c rest value) value).
    rewrite foundChild_nodes_length in IH. lia.
Qed.

End Count.

(** ** Nodes stay where they are *)

Section Persistence.

Lemma Forall2_extends_In cs cs' c :
  Forall2 extends cs cs' -> In c cs ->
  exists c', In c' cs' /\ extends c c'.
Proof.
  induction 1 as [|x y l l' Hxy _ IH]; intros Hin; [destruct Hin|].
  destruct Hin as [<- | Hin].
  - exists y. split; [now left | assumption].
  - destruct (IH Hin) as (c' & Hc' & He). exists c'. split; [now right | assumption].
Qed.

(** What is found by a path in a tree is found by the same path in every
    tree that extends it. *)
Lemma extends_reach t p n :
  reach t p n ->
  forall t', extends t t' -> exists n', reach t' p n' /\ extends n n'.
Proof.
  induction 1 as [t | t c p n Hin _ IH]; intros t' Hext.
  - exists t'. split; [apply reach_here | assumption].
  - apply extends_inv in Hext as (_ & _ & cs' & added & Hcs & E).
    destruct (Forall2_extends_In _ _ _ Hcs Hin) as (c' & Hc' & Hcc').
    destruct (IH _ Hcc') as (n' & Hn' & He).
    exists n'. split; [|assumption].
    apply extends_inv in Hcc' as Hinv. destruct Hinv as (_ & <- & _).
    apply reach_child; [|assumption].
    rewrite E. apply in_or_app. now left.
Qed.

End Persistence.

(** ** Raw keys *)

Section RawKeys.

Lemma substring_0_0 (s : string) : substring 0 0 s = ""%string.
Proof. now destruct s. Qed.

Lemma substring_0_length (s : string) : substring 0 (String.length s) s = s.
Proof. induction s as [|c s IH]; cbn; [reflexivity | now rewrite IH]. Qed.

Lemma HasPrefix_slash (c : ascii) (s : string) :
  strings.HasPrefix (String c s) "/" = Ascii.eqb c slash.
Proof.
  unfold strings.HasPrefix. cbn. rewrite substring_0_0. cbn.
  unfold slash. now destruct (Ascii.eqb c "/").
Qed.

(** One leading separator is removed, and only one. *)
Lemma TrimPrefix_slash (k : string) :
  strings.TrimPrefix (String slash k) "/" = k.
Proof.
  unfold strings.TrimPrefix. rewrite HasPrefix_slash, Ascii.eqb_refl.
  cbn. rewrite Nat.sub_0_r. apply substring_0_length.
Qed.

Lemma HasPrefix_slash_parts (key : string) :
  strings.HasPrefix key "/" = true ->
  exists parts, strings.Split key slash = ""%string :: parts /\ parts <> [].
Proof.
  destruct key as [|c s]; [discriminate|].
  rewrite HasPrefix_slash. intros H. cbn [strings.Split]. rewrite H.
  exists (strings.Split s slash). split; [reflexivity | apply Split_not_nil].
Qed.

(** Two keys that start with the separator and split into the same
    segments are the same key. *)
Lemma keyParts_inj (k1 k2 : string) :
  strings.HasPrefix k1 "/" = true -> strings.HasPrefix k2 "/" = true ->
  keyParts k1 = keyParts k2 -> k1 = k2.
Proof.
  intros H1 H2 E. unfold keyParts in E.
  destruct (HasPrefix_slash_parts k1 H1) as (p1 & E1 & _).
  destruct (HasPrefix_slash_parts k2 H2) as (p2 & E2 & _).
  rewrite <- (joinPath_Split k1), <- (joinPath_Split k2).
  rewrite E1, E2 in *. cbn [tl] in E. now subst.
Qed.

End RawKeys.

(** ** What a listing tree holds *)

Section ListingTree.

Lemma buildTree_app l1 l2 :
  buildTree (l1 ++ l2) = fold_left insertKv l2 (buildTree l1).
Proof. unfold buildTree. apply fold_left_app. Qed.

Lemma fold_insertKv_frame l : forall t q n,
  nodeAt t q = Some n ->
  Forall (fun kv => keyParts (fst kv) <> q) l ->
  exists n', nodeAt (fold_left insertKv l t) q = Some n'
             /\ Value n' = Value n.
Proof.
  induction l as [|kv l IH]; intros t q n H Hall; [eauto|].
  inversion Hall as [|? ? Hkv Hl]; subst.
  destruct (insertNode_frame q t (keyParts (fst kv)) (snd kv) n H)
    as (n1 & H1 & _ & _ & Hv1); [congruence|].
  destruct (IH _ _ _ H1 Hl) as (n2 & H2 & Hv2).
  exists n2. split; [exact H2 | congruence].
Qed.

Lemma nodeAt_In_nodes p : forall t n, nodeAt t p = Some n -> In n (nodes t).
Proof.
  induction p as [|part p IH]; intros t n H; rewrite nodes_eq.
  - inversion H; subst. now left.
  - cbn [nodeAt] in H. right.
    destruct (findChild part (Children t)) as [[i c]|] eqn:F; [|discriminate].
    destruct (findChild_Some _ _ _ _ F) as (l1 & l2 & E & _ & _ & _).
    apply in_flat_map. exists c. split; [|now apply IH].
    rewrite E. apply in_or_app. right. now left.
Qed.

Lemma nodeAt_In_nodesOf p t n :
  p <> [] -> nodeAt t p = Some n -> In n (nodesOf (Children t)).
Proof.
  destruct p as [|part p]; [contradiction|]. intros _ H.
  cbn [nodeAt] in H.
  destruct (findChild part (Children t)) as [[i c]|] eqn:F; [|discriminate].
  destruct (findChild_Some _ _ _ _ F) as (l1 & l2 & E & _ & _ & _).
  apply in_flat_map. exists c. split; [|now apply (nodeAt_In_nodes p)].
  rewrite E. apply in_or_app. right. now left.
Qed.

End ListingTree.

(** * Further theorems *)

(** X1: after the insertion of a non-empty path with a value, the search
    along the path ends at a node that holds the value and is named by the
    last segment, whatever the tree was. *)
Theorem insert_then_find :
  forall root parts value,
    parts <> [] ->
    exists n, nodeAt (insertNode root parts value) parts = Some n
              /\ Value n = value /\ Name n = last parts ""%string.
Proof. intros root parts value. apply insertNode_nodeAt. Qed.

Lemma insert_then_find_witness :
  exists n, nodeAt (insertNode freshRoot ["a"; "b"] "v") ["a"; "b"] = Some n
            /\ Value n = "v"%string /\ Name n = "b"%string.
Proof.
  apply (insert_then_find freshRoot ["a"; "b"] "v"). discriminate.
Defined.

(** X2: an insertion leaves every node found along another path with its
    id, its name and its value; this includes the nodes above and below
    the end of the inserted path. *)
Theorem insert_keeps_other_nodes :
  forall root parts value q n,
    nodeAt root q = Some n -> q <> parts ->
    exists n', nodeAt (insertNode root parts value) q = Some n'
               /\ ID n' = ID n /\ Name n' = Name n /\ Value n' = Value n.
Proof. intros root parts value q n. apply insertNode_frame. Qed.

Lemma insert_keeps_other_nodes_witness :
  exists n',
    nodeAt (insertNode (insertNode freshRoot ["a"] "1") ["a"; "b"] "2") ["a"]
    = Some n'
    /\ ID n' = "/a"%string /\ Name n' = "a"%string /\ Value n' = "1"%string.
Proof.
  apply (insert_keeps_other_nodes (insertNode freshRoot ["a"] "1")
           ["a"; "b"] "2" ["a"] (mkTreeNode "/a" "a" "1" [])).
  - reflexivity.
  - discriminate.
Defined.

(** X3: inserting the same path with the same value a second time, right
    after the first, changes nothing. *)
Theorem insert_same_twice :
  forall root parts value,
    insertNode (insertNode root parts value) parts value
    = insertNode root parts value.
Proof. intros root parts value. apply insertNode_twice. Qed.

(** X4: the builder creates no node off the inserted paths: the path of
    every node below a fresh root is a prefix of the path of one of the
    insertions. *)
Theorem nodes_lie_on_inserted_paths :
  forall ins p n,
    reach (insertAll freshRoot ins) p n -> p <> [] ->
    exists i suffix, In i ins /\ fst i = p ++ suffix.
Proof.
  intros ins p n H Hp.
  destruct (reach_insertAll_inv _ _ _ _ H) as [[n0 H0] | (_ & i & suffix & Hi)].
  - apply reach_leaf in H0. contradiction.
  - eauto.
Qed.

Lemma nodes_lie_on_inserted_paths_witness :
  exists i suffix,
    In i [(["a"; "b"], "v")] /\ fst i = ["a"] ++ suffix.
Proof.
  apply (nodes_lie_on_inserted_paths [(["a"; "b"], "v")] ["a"]
           (mkTreeNode "/a" "a" "" [mkTreeNode "/a/b" "b" "v" []])).
  - apply (reach_child (insertAll freshRoot [(["a"; "b"], "v")])
             (mkTreeNode "/a" "a" "" [mkTreeNode "/a/b" "b" "v" []]) [] _).
    + left. reflexivity.
    + apply reach_here.
  - discriminate.
Defined.

(** X5: every prefix of the path of every insertion of a sequence has its
    node in the resulting tree, whatever the root and the other
    insertions: no insertion removes or hides a node. *)
Theorem inserted_paths_have_nodes :
  forall root ins i p suffix,
    In i ins -> fst i = p ++ suffix ->
    exists n, nodeAt (insertAll root ins) p = Some n
              /\ reach (insertAll root ins) p n.
Proof.
  intros root ins i p suffix Hi E.
  pose proof (hasPath_insertAll_member ins root i Hi) as H.
  rewrite E in H. apply hasPath_prefix, hasPath_nodeAt in H as [n Hn].
  exists n. split; [assumption | now apply nodeAt_reach].
Qed.

Lemma inserted_paths_have_nodes_witness :
  exists n,
    nodeAt (insertAll freshRoot [(["a"; "b"], "1"); (["c"], "2")]) ["a"]
    = Some n
    /\ reach (insertAll freshRoot [(["a"; "b"], "1"); (["c"], "2")]) ["a"] n.
Proof.
  apply (inserted_paths_have_nodes freshRoot
           [(["a"; "b"], "1"); (["c"], "2")] (["a"; "b"], "1") ["a"] ["b"]).
  - left. reflexivity.
  - reflexivity.
Defined.

(** X6: in a tree built from a fresh root no two children of a node have
    the same name, so a path leads to at most one node, whatever the
    segments inserted (empty ones and ones with separators included). *)
Theorem one_node_per_path :
  forall ins p n1 n2,
    reach (insertAll freshRoot ins) p n1 ->
    reach (insertAll freshRoot ins) p n2 ->
    n1 = n2 /\ NoDup (map Name (Children n1)).
Proof.
  intros ins p n1 n2 H1 H2.
  assert (Hd : siblingsDistinct (insertAll freshRoot ins))
    by apply insertAll_siblingsDistinct, siblingsDistinct_leaf.
  destruct (reach_unique _ _ _ H1 Hd) as [Huniq Hn1].
  split; [now apply Huniq | apply (siblingsDistinct_inv _ Hn1)].
Qed.

Lemma one_node_per_path_witness :
  mkTreeNode "/a" "a" "2" [] = mkTreeNode "/a" "a" "2" []
  /\ NoDup (map Name (Children (mkTreeNode "/a" "a" "2" []))).
Proof.
  assert (R : reach (insertAll freshRoot [(["a"], "1"); (["a"], "2")]) ["a"]
                    (mkTreeNode "/a" "a" "2" [])).
  { apply (reach_child (insertAll freshRoot [(["a"], "1"); (["a"], "2")])
             (mkTreeNode "/a" "a" "2" []) [] _).
    - left. reflexivity.
    - apply reach_here. }
  exact (one_node_per_path [(["a"], "1"); (["a"], "2")] ["a"] _ _ R R).
Defined.

(** X7: one insertion removes no node and creates at most one node for
    each segment of its path: every node of the tree is still found by its
    path after the insertion, with its id and its name, and the number of
    nodes does not decrease and grows by at most [len(parts)]. *)
Theorem insert_removes_no_node :
  forall root parts value,
    (forall p n, reach root p n ->
                 exists n', reach (insertNode root parts value) p n'
                            /\ ID n' = ID n /\ Name n' = Name n)
    /\ List.length (nodes root)
       <= List.length (nodes (insertNode root parts value))
    /\ List.length (nodes (insertNode root parts value))
       <= List.length (nodes root) + List.length parts.
Proof.
  intros root parts value. split; [|apply insertNode_nodes_length].
  intros p n H.
  destruct (extends_reach _ _ _ H _ (insertNode_extends parts root value))
    as (n' & Hreach & Hext).
  exists n'. split; [assumption|].
  apply extends_inv in Hext as (Hid & Hname & _). auto.
Qed.

Lemma insert_removes_no_node_witness :
  exists n',
    reach (insertNode (insertNode freshRoot ["a"] "1") ["c"] "3") ["a"] n'
    /\ ID n' = "/a"%string /\ Name n' = "a"%string.
Proof.
  apply (proj1 (insert_removes_no_node (insertNode freshRoot ["a"] "1")
                  ["c"] "3")
           ["a"] (mkTreeNode "/a" "a" "1" [])).
  apply (reach_child (insertNode freshRoot ["a"] "1")
           (mkTreeNode "/a" "a" "1" []) [] _).
  - left. reflexivity.
  - apply reach_here.
Defined.

(** X8: the leading separator of a lookup key is optional: a non-empty key
    that does not start with the separator is looked up the same way with
    one separator put in front of it. *)
Theorem lookup_leading_separator_optional :
  forall (client : Client) k,
    k <> ""%string -> strings.HasPrefix k "/" = false ->
    FetchValueForKeyHandler client (String slash k)
    = FetchValueForKeyHandler client k.
Proof.
  intros client k Hk Hpre. unfold FetchValueForKeyHandler.
  apply String.eqb_neq in Hk. rewrite Hk. cbn [String.eqb].
  rewrite TrimPrefix_slash. unfold strings.TrimPrefix. now rewrite Hpre.
Qed.

Lemma lookup_leading_separator_optional_witness :
  FetchValueForKeyHandler (fun _ => GetOk [("a/b", "v")]) "/a/b"
  = FetchValueForKeyHandler (fun _ => GetOk [("a/b", "v")]) "a/b".
Proof.
  apply (lookup_leading_separator_optional
           (fun _ => GetOk [("a/b", "v")]) "a/b").
  - discriminate.
  - reflexivity.
Defined.

(** X9: the lookup handler either rejects the key without contacting the
    store, which it does exactly for the empty key and with the status 400,
    or it sends the store one exact-match request for the key without one
    leading separator and answers 200, 404 or 500. *)
Theorem lookup_store_calls :
  forall (client : Client) key,
    (key = ""%string
     /\ storeCalls (FetchValueForKeyHandler client key) = []
     /\ status (response (FetchValueForKeyHandler client key))
        = StatusBadRequest)
    \/ (key <> ""%string
        /\ storeCalls (FetchValueForKeyHandler client key)
           = [mkGetRequest (strings.TrimPrefix key "/") false]
        /\ (status (response (FetchValueForKeyHandler client key)) = StatusOK
            \/ status (response (FetchValueForKeyHandler client key))
               = StatusNotFound
            \/ status (response (FetchValueForKeyHandler client key))
               = StatusInternalServerError)).
Proof.
  intros client key. unfold FetchValueForKeyHandler.
  destruct (String.eqb_spec key "") as [-> | Hne]; [left; auto|].
  right. split; [assumption|].
  destruct (client (mkGetRequest (strings.TrimPrefix key "/") false))
    as [|[|kv kvs]]; cbn; auto.
Qed.

(** X10: when the keys the store returns are pairwise distinct and all
    start with the separator, as the keys under the prefix ["/"] do, the
    listing tree has, for every pair returned, a node at the path of the
    segments of the key that holds the value of the pair, and this node is
    in the response; empty segments and empty values are not excluded. *)
Theorem listing_holds_every_pair :
  forall kvs key value,
    NoDup (map fst kvs) ->
    Forall (fun kv => strings.HasPrefix (fst kv) "/" = true) kvs ->
    In (key, value) kvs ->
    exists n, nodeAt (buildTree kvs) (keyParts key) = Some n
              /\ Value n = value
              /\ In n (nodesOf (Children (buildTree kvs))).
Proof.
  intros kvs key value Hnd Hall Hin.
  apply in_split in Hin as (l1 & l2 & ->).
  apply Forall_app in Hall as [_ Hall].
  inversion Hall as [|? ? Hkey Hl2]; subst. cbn [fst] in Hkey.
  destruct (HasPrefix_slash_parts key Hkey) as (parts & Eparts & Hparts).
  assert (Hne : keyParts key <> []) by (unfold keyParts; now rewrite Eparts).
  rewrite map_app in Hnd. cbn [map fst] in Hnd.
  apply NoDup_remove_2 in Hnd.
  destruct (insertNode_nodeAt (keyParts key) (buildTree l1) value Hne)
    as (n0 & H0 & Hv0 & _).
  destruct (fold_insertKv_frame l2 (insertKv (buildTree l1) (key, value))
              (keyParts key) n0 H0) as (n & Hn & Hv).
  { rewrite Forall_forall in *. intros kv Hkv E.
    apply Hnd, in_or_app. right.
    rewrite <- (keyParts_inj (fst kv) key (Hl2 kv Hkv) Hkey E).
    now apply in_map. }
  rewrite buildTree_app. cbn [fold_left].
  exists n. split; [assumption|]. split; [congruence|].
  now apply (nodeAt_In_nodesOf (keyParts key)).
Qed.

Lemma listing_holds_every_pair_witness :
  exists n,
    nodeAt (buildTree [("/a/", ""); ("/a", "1"); ("//", "2")]) (keyParts "/a/")
    = Some n
    /\ Value n = ""%string
    /\ In n (nodesOf (Children
                        (buildTree [("/a/", ""); ("/a", "1"); ("//", "2")]))).
Proof.
  apply (listing_holds_every_pair
           [("/a/", ""); ("/a", "1"); ("//", "2")] "/a/" "").
  - repeat constructor; cbn; intros H;
      repeat (destruct H as [H | H]; [discriminate H|]); exact H.
  - repeat constructor.
  - left. reflexivity.
Defined.

(** ** The nodes of a listing *)

Section ListingNodes.

Lemma fold_insertKv_insertAll kvs : forall t,
  fold_left insertKv kvs t
  = insertAll t (map (fun kv => (keyParts (fst kv), snd kv)) kvs).
Proof.
  induction kvs as [|kv kvs IH]; intros t; [reflexivity|].
  cbn [fold_left map]. rewrite IH. reflexivity.
Qed.

Lemma buildTree_insertAll kvs :
  buildTree kvs
  = insertAll freshRoot (map (fun kv => (keyParts (fst kv), snd kv)) kvs).
Proof. apply fold_insertKv_insertAll. Qed.

Lemma In_nodes_reach t : forall n, In n (nodes t) -> exists p, reach t p n.
Proof.
  induction t as [id name value cs IH] using TreeNode_forall_ind.
  intros n Hin. cbn [nodes] in Hin. destruct Hin as [<- | Hin].
  - exists []. apply reach_here.
  - apply in_flat_map in Hin as (c & Hc & Hin).
    rewrite Forall_forall in IH. destruct (IH c Hc n Hin) as [p Hp].
    exists (Name c :: p). now apply reach_child.
Qed.

Lemma In_nodesOf_reach t n :
  In n (nodesOf (Children t)) -> exists p, p <> [] /\ reach t p n.
Proof.
  intros Hin. apply in_flat_map in Hin as (c & Hc & Hin).
  destruct (In_nodes_reach c n Hin) as [p Hp].
  exists (Name c :: p). split; [discriminate | now apply reach_child].
Qed.

Lemma joinLeading_app p : forall q,
  joinLeading (p ++ q) = (joinLeading p ++ joinLeading q)%string.
Proof.
  induction p as [|seg p IH]; intros q; [reflexivity|].
  cbn [app joinLeading fold_right].
  change (fold_right (fun seg acc : string => ("/" ++ seg ++ acc)%string) ""
            (p ++ q)) with (joinLeading (p ++ q)).
  change (fold_right (fun seg acc : string => ("/" ++ seg ++ acc)%string) "" p)
    with (joinLeading p).
  rewrite IH. cbn [append]. now rewrite append_assoc3.
Qed.

Lemma reach_app_inv p : forall t q n,
  reach t (p ++ q) n -> exists m, reach t p m /\ reach m q n.
Proof.
  induction p as [|seg p IH]; intros t q n H.
  - exists t. split; [apply reach_here | assumption].
  - cbn [app] in H. inversion H as [|? c ? ? Hc Hreach]; subst.
    destruct (IH _ _ _ Hreach) as (m & Hm & Hq).
    exists m. split; [now apply reach_child | assumption].
Qed.

Lemma wellFormed_keyParts (kvs : list (string * string)) :
  Forall (fun kv => wellFormedKey (fst kv) = true) kvs ->
  Forall (fun i => Forall (fun seg => validSeg seg = true) (fst i))
         (map (fun kv => (keyParts (fst kv), snd kv)) kvs).
Proof.
  induction 1 as [|kv kvs Hkv _ IH]; cbn [map]; constructor; [|assumption].
  apply (wellFormedKey_parts (fst kv) Hkv).
Qed.

End ListingNodes.

(** X11: when every key the store returns is well formed, the listing
    handler answers with the status 200 and hands to [c.JSON] a list of
    nodes in which no two nodes have the same [ID] string. *)
Theorem listing_ids_distinct :
  forall (client : Client) kvs,
    client (mkGetRequest "/" true) = GetOk kvs ->
    Forall (fun kv => wellFormedKey (fst kv) = true) kvs ->
    exists nodes,
      response (FetchKeysHandler client) = mkResponse StatusOK (NodesBody nodes)
      /\ NoDup (map ID (nodesOf nodes)).
Proof.
  intros client kvs Hget Hall.
  exists (Children (buildTree kvs)). split.
  - unfold FetchKeysHandler. now rewrite Hget.
  - assert (H : NoDup (map ID (nodes (buildTree kvs)))).
    { rewrite buildTree_insertAll. apply NoDup_ids.
      - apply insertAll_idsBuilt, idsBuilt_leaf.
      - apply insertAll_namesValid;
          [now apply wellFormed_keyParts | apply namesValid_leaf]. }
    rewrite nodes_eq in H. cbn [map] in H. now inversion H.
Qed.

Lemma listing_ids_distinct_witness :
  exists nodes,
    response (FetchKeysHandler
                (fun _ => GetOk [("/a/b", "1"); ("/a/c", ""); ("/d", "2")]))
    = mkResponse StatusOK (NodesBody nodes)
    /\ NoDup (map ID (nodesOf nodes)).
Proof.
  apply (listing_ids_distinct
           (fun _ => GetOk [("/a/b", "1"); ("/a/c", ""); ("/d", "2")])
           [("/a/b", "1"); ("/a/c", ""); ("/d", "2")]).
  - reflexivity.
  - repeat constructor.
Defined.

(** X12: when every key the store returns is well formed, the [ID] string
    of every node of the tree the listing handler builds, below the root,
    is one of the keys returned or such a key cut before one of its
    separators: some returned key is the id followed by zero or more
    segments, each preceded by the separator. *)
Theorem listing_ids_are_key_prefixes :
  forall (kvs : list (string * string)) n,
    Forall (fun kv => wellFormedKey (fst kv) = true) kvs ->
    In n (nodesOf (Children (buildTree kvs))) ->
    exists key value suffix,
      In (key, value) kvs /\ key = (ID n ++ joinLeading suffix)%string.
Proof.
  intros kvs n Hall Hin.
  destruct (In_nodesOf_reach _ _ Hin) as (p & Hp & Hreach).
  rewrite buildTree_insertAll in Hreach.
  destruct (reach_insertAll_inv _ _ _ _ Hreach)
    as [[n0 H0] | (_ & i & suffix & Hi & E)];
    [apply reach_leaf in H0; contradiction|].
  apply in_map_iff in Hi as ([key value] & <- & Hkv). cbn [fst snd] in E.
  rewrite Forall_forall in Hall.
  destruct (wellFormedKey_parts key (Hall _ Hkv)) as (_ & Hsegs & Hkey).
  cbv zeta in Hsegs, Hkey. fold (keyParts key) in Hsegs, Hkey.
  exists key, value, suffix. split; [assumption|].
  rewrite (reach_pathID _ _ _ Hreach
             (insertAll_idsBuilt _ freshRoot (idsBuilt_leaf _ _ _))).
  rewrite insertAll_ID. cbn [ID freshRoot].
  rewrite E in Hsegs. apply Forall_app in Hsegs as [Hp' _].
  rewrite pathID_plain.
  - cbn [append]. now rewrite <- joinLeading_app, <- E.
  - eapply Forall_impl; [|exact Hp']. intros seg. apply validSeg_plainEnd.
Qed.

Lemma listing_ids_are_key_prefixes_witness :
  exists key value suffix,
    In (key, value) [("/a/b", "1"); ("/d", "2")]
    /\ key = (ID (mkTreeNode "/a" "a" "" [mkTreeNode "/a/b" "b" "1" []])
              ++ joinLeading suffix)%string.
Proof.
  apply (listing_ids_are_key_prefixes [("/a/b", "1"); ("/d", "2")]
           (mkTreeNode "/a" "a" "" [mkTreeNode "/a/b" "b" "1" []])).
  - repeat constructor.
  - left. reflexivity.
Defined.

(** X13: a node without children, below a fresh root, is the end of the
    path of one of the insertions: the builder leaves no dangling
    namespace node. *)
Theorem leaves_are_inserted_paths :
  forall ins p n,
    reach (insertAll freshRoot ins) p n -> p <> [] -> Children n = [] ->
    exists value, In (p, value) ins.
Proof.
  intros ins p n H Hp Hleaf.
  destruct (reach_insertAll_inv _ _ _ _ H)
    as [[n0 H0] | (_ & [parts value] & suffix & Hi & E)];
    [apply reach_leaf in H0; contradiction|].
  cbn [fst] in E. destruct suffix as [|s suffix].
  - rewrite app_nil_r in E. subst parts. now exists value.
  - exfalso.
    pose proof (hasPath_insertAll_member ins freshRoot _ Hi) as Hpath.
    cbn [fst] in Hpath. rewrite E in Hpath.
    change (p ++ s :: suffix) with (p ++ [s] ++ suffix) in Hpath.
    rewrite app_assoc in Hpath.
    apply hasPath_prefix, hasPath_nodeAt in Hpath as [n' Hn'].
    apply nodeAt_reach, reach_app_inv in Hn' as (m & Hm & Hs).
    assert (Hd : siblingsDistinct (insertAll freshRoot ins))
      by apply insertAll_siblingsDistinct, siblingsDistinct_leaf.
    destruct (reach_unique _ _ _ H Hd) as [Huniq _].
    rewrite <- (Huniq m Hm) in Hs.
    inversion Hs as [|? c ? ? Hc _]; subst.
    rewrite Hleaf in Hc. destruct Hc.
Qed.

Lemma leaves_are_inserted_paths_witness :
  exists value, In (["a"; "b"], value) [(["a"; "b"], "v"); (["a"], "w")].
Proof.
  apply (leaves_are_inserted_paths [(["a"; "b"], "v"); (["a"], "w")]
           ["a"; "b"] (mkTreeNode "/a/b" "b" "v" [])).
  - apply (reach_child
             (insertAll freshRoot [(["a"; "b"], "v"); (["a"], "w")])
             (mkTreeNode "/a" "a" "w" [mkTreeNode "/a/b" "b" "v" []]) ["b"] _).
    + left. reflexivity.
    + apply (reach_child
               (mkTreeNode "/a" "a" "w" [mkTreeNode "/a/b" "b" "v" []])
               (mkTreeNode "/a/b" "b" "v" []) [] _).
      * left. reflexivity.
      * apply reach_here.
  - discriminate.
  - reflexivity.
Defined.

(** ** A path and the paths below it *)

Section PrefixPaths.

Lemma nodeAt_app_inv p : forall t q n,
  nodeAt t (p ++ q) = Some n ->
  exists m, nodeAt t p = Some m /\ nodeAt m q = Some n.
Proof.
  induction p as [|part p IH]; intros t q n H; [now exists t|].
  cbn [app nodeAt] in *.
  destruct (findChild part (Children t)) as [[i c]|]; [|discriminate].
  now apply IH.
Qed.

Lemma insertAll_frame later : forall t q n,
  nodeAt t q = Some n ->
  Forall (fun i => fst i <> q) later ->
  exists n', nodeAt (insertAll t later) q = Some n'
             /\ ID n' = ID n /\ Name n' = Name n /\ Value n' = Value n.
Proof.
  induction later as [|[parts value] later IH]; intros t q n H Hall;
    [exists n; auto|].
  inversion Hall as [|? ? Hi Hl]; subst. cbn [fst] in Hi.
  destruct (insertNode_frame q t parts value n H) as (n1 & H1 & Hid & Hnm & Hv);
    [congruence|].
  destruct (IH (insertNode t parts value) q n1 H1 Hl) as (n2 & H2 & Hid2 & Hnm2 & Hv2).
  exists n2. split; [exact H2|]. repeat split; congruence.
Qed.

Lemma insertNode_leaf t part rest value :
  Children t = [] ->
  insertNode t (part :: rest) value
  = setChildren t [insertNode (newNodeOf t part rest value) rest value].
Proof. intros H. cbn [insertNode]. now rewrite H. Qed.

Lemma insertNode_only_child t c part rest value :
  Children t = [c] -> Name c = part ->
  insertNode t (part :: rest) value
  = setChildren t [insertNode (foundChild c rest value) rest value].
Proof.
  intros H Hn. cbn [insertNode]. rewrite H. cbn [findChild].
  apply String.eqb_eq in Hn. now rewrite Hn.
Qed.

Lemma nodeAt_only_child t c part rest :
  Children t = [c] -> Name c = part ->
  nodeAt t (part :: rest) = nodeAt c rest.
Proof.
  intros H Hn. cbn [nodeAt]. rewrite H. cbn [findChild].
  apply String.eqb_eq in Hn. now rewrite Hn.
Qed.

Lemma lastPart_snoc rest (b : string) : lastPart (rest ++ [b]) = false.
Proof. now destruct rest. Qed.

(** Below a node without children: a path inserted with a value, then the
    path with one more segment inserted with a second value. *)
Lemma insertNode_prefix_then_child p : forall t b v1 v2,
  Children t = [] -> p <> [] ->
  exists a c,
    nodeAt (insertNode (insertNode t p v1) (p ++ [b]) v2) p = Some a
    /\ Value a = v1 /\ Children a = [c]
    /\ Name c = b /\ Value c = v2 /\ Children c = [].
Proof.
  induction p as [|part rest IH]; intros t b v1 v2 Hleaf Hne; [contradiction|].
  rewrite (insertNode_leaf t part rest v1 Hleaf).
  cbn [app].
  set (N1 := insertNode (newNodeOf t part rest v1) rest v1).
  assert (HN1 : Name N1 = part) by apply insertNode_Name.
  rewrite (insertNode_only_child (setChildren t [N1]) N1 part (rest ++ [b]) v2
             eq_refl HN1).
  unfold foundChild. rewrite lastPart_snoc.
  assert (HN2 : Name (insertNode N1 (rest ++ [b]) v2) = part)
    by (now rewrite insertNode_Name).
  rewrite (nodeAt_only_child
             (setChildren (setChildren t [N1]) [insertNode N1 (rest ++ [b]) v2])
             (insertNode N1 (rest ++ [b]) v2) part rest eq_refl HN2).
  subst N1. clear HN1 HN2.
  destruct rest as [|r rest].
  - do 2 eexists. cbn. repeat split.
  - apply (IH (newNodeOf t part (r :: rest) v1) b v1 v2);
      [reflexivity | discriminate].
Qed.

End PrefixPaths.

(** C6: a path inserted with a value, and paths below it inserted later.
    For any tree, any non-empty path [p] and any later insertions of other
    paths, the node of [p] holds the value [p] was inserted with, and for
    every later insertion of a longer path [p ++ q] it has a child, named
    by the first segment of [q]: the node has a value and children.  Into
    a fresh root, [p] and then [p] with one more segment [b] give the
    node of [p] its value and exactly one child, named [b], with the
    second value and no children (the insertions of [a] and [a/b]).
    [insertNode] is a function on trees and has no error result. *)
Theorem C6_prefix_coexistence :
  (forall root p v1 later,
      p <> [] ->
      Forall (fun i => fst i <> p) later ->
      exists a,
        nodeAt (insertAll (insertNode root p v1) later) p = Some a
        /\ Value a = v1
        /\ forall q v2,
            q <> [] -> In (p ++ q, v2) later ->
            Children a <> []
            /\ exists c, In c (Children a) /\ Name c = hd ""%string q)
  /\ (forall p b v1 v2,
         p <> [] ->
         exists a c,
           nodeAt (insertAll freshRoot [(p, v1); (p ++ [b], v2)]) p = Some a
           /\ Value a = v1 /\ Children a = [c]
           /\ Name c = b /\ Value c = v2 /\ Children c = []).
Proof.
  split.
  - intros root p v1 later Hne Hall.
    destruct (insertNode_nodeAt p root v1 Hne) as (a0 & H0 & Hv0 & _).
    destruct (insertAll_frame later _ p a0 H0 Hall) as (a & Ha & _ & _ & Hv).
    exists a. split; [assumption|]. split; [congruence|].
    intros q v2 Hq Hin.
    pose proof (hasPath_insertAll_member later (insertNode root p v1) _ Hin)
      as Hpath.
    cbn [fst] in Hpath. apply hasPath_nodeAt in Hpath as [n Hn].
    apply nodeAt_app_inv in Hn as (m & Hm & Hmq).
    rewrite Ha in Hm. inversion Hm; subst m.
    destruct q as [|s q]; [contradiction|]. cbn [nodeAt hd] in *.
    destruct (findChild s (Children a)) as [[i c]|] eqn:F; [|discriminate].
    destruct (findChild_Some _ _ _ _ F) as (l1 & l2 & E & _ & Hname & _).
    assert (Hc : In c (Children a))
      by (rewrite E; apply in_or_app; right; now left).
    split; [intros E0; rewrite E0 in Hc; destruct Hc | eauto].
  - intros p b v1 v2 Hne.
    apply (insertNode_prefix_then_child p freshRoot b v1 v2 eq_refl Hne).
Qed.

Lemma C6_prefix_coexistence_witness :
  exists a c,
    nodeAt (insertAll freshRoot [(["a"], "v1"); (["a"; "b"], "v2")]) ["a"]
    = Some a
    /\ Value a = "v1"%string /\ Children a = [c]
    /\ Name c = "b"%string /\ Value c = "v2"%string /\ Children c = [].
Proof.
  apply (proj2 C6_prefix_coexistence ["a"] "b" "v1" "v2"). discriminate.
Defined.
